(** * Cumulative Merkle distributor: the distribution-generation engine

    A shallow embedding of [Distributor] (distribution generation) and
    [ProofGenerator] (proof lookup and verification), together with the
    properties of the engine stated in the specification.

    Conventions of the embedding.
    - An [async] method that may reject is a function into [result];
      [await] is the bind of that monad, [throw] is [Err], and a
      [try { .. } catch] block is a match on the outcome.
    - Everything the engine reads from outside (the RPC endpoint, the
      contracts, the blob store) is collected in one record [World]; a read
      that rejects is [None].  A world is pinned: the same read gives the
      same answer during one run.
    - The Merkle library is the capability record [MerkleLib]; its hashes
      are not computed here.
    - [bigint] is [Z]; [/] on [bigint] truncates toward zero ([Z.quot]) and
      throws a [RangeError] on a zero divisor.
    - A decimal string holding an amount is represented by [numstr]: the
      integer that [BigInt(..)] reads from it, or [NotANumber] when
      [BigInt(..)] throws. *)

From Stdlib Require Import ZArith Lia Ascii String List Sorted Permutation.
From Stdlib Require Import Floats.PrimFloat Floats.SpecFloat Floats.FloatOps.
From stdpp Require Import gmap strings list pretty sorting.

Local Open Scope string_scope.
Local Open Scope list_scope.
Local Open Scope Z_scope.

(** ** Exceptions *)

Inductive error : Type :=
| RpcFailure          (* a contract call or provider request rejected *)
| IpfsFailure         (* 'Failed to download from IPFS' / 'Failed to upload to IPFS' *)
| ValidationFailed    (* 'Previous distribution validation failed' *)
| NoClaims            (* 'No claims to process' *)
| MerkleFailure       (* the Merkle library threw *)
| BalanceUnavailable  (* 'Failed to get distributor token balance' *)
| RangeError          (* BigInt division by zero, BigInt of a non-integer *)
| SyntaxError         (* BigInt of a string that is not a number *)
| TypeError.

Inductive result (A : Type) : Type :=
| Ok (a : A)
| Err (e : error).
Arguments Ok {A} a.
Arguments Err {A} e.

Definition bind {A B : Type} (c : result A) (k : A -> result B) : result B :=
  match c with
  | Ok a => k a
  | Err e => Err e
  end.

Notation "'let*' x ':=' c 'in' k" := (bind c (fun x => k))
  (at level 10, x pattern, c at level 100, k at level 200).

(** A result that is not the failure of the validation. *)
Definition other_failure {A : Type} (r : result A) : Prop :=
  r <> Err ValidationFailed.

(** [await] of a read that either resolves or rejects. *)
Definition await {A : Type} (e : error) (o : option A) : result A :=
  match o with
  | Some a => Ok a
  | None => Err e
  end.

(** [for (const x of xs) { st = body(st, x) }] with a body that may throw. *)
Fixpoint for_of {S A : Type} (body : S -> A -> result S) (xs : list A) (st : S)
  : result S :=
  match xs with
  | [] => Ok st
  | x :: xs' => let* st' := body st x in for_of body xs' st'
  end.

(** ** JavaScript primitives *)

Module Js.

(** [String.prototype.toLowerCase], on the ASCII letters (addresses and
    hashes are ASCII; other bytes are left as they are). *)
Definition lower_ascii (c : ascii) : ascii :=
  let n := N_of_ascii c in
  if ((65 <=? n) && (n <=? 90))%N then ascii_of_N (n + 32) else c.

Fixpoint toLowerCase (s : string) : string :=
  match s with
  | EmptyString => EmptyString
  | String c s' => String (lower_ascii c) (toLowerCase s')
  end.

(** [s.slice(n)] for [0 <= n]: the string without its first [n] characters. *)
Fixpoint slice (n : nat) (s : string) : string :=
  match n, s with
  | O, _ => s
  | S n', String _ s' => slice n' s'
  | S _, EmptyString => EmptyString
  end.

Definition sign (c : comparison) : Z :=
  match c with
  | Lt => -1
  | Eq => 0
  | Gt => 1
  end.

(** [a.localeCompare(b)] is a primitive of the platform (ECMA-402, the
    root collation of ICU), not code of the repository.  It is modelled on
    the alphabet of addresses, the digits and the ASCII letters: the
    strings are first compared with letter case ignored (digits before
    letters, letters in alphabetical order, a proper prefix first), which
    on this alphabet is the code-unit order of the lowercase forms; when
    that finds no difference the first position where the case differs
    decides, the lowercase letter first. *)
Definition localeCompare (a b : string) : Z :=
  match String.compare (toLowerCase a) (toLowerCase b) with
  | Eq => sign (String.compare b a)
  | c => sign c
  end.

(** [Array.prototype.sort(comparefn)]: a stable sort; for a consistent
    comparator every stable sort gives the same array.  Written as an
    insertion sort that keeps equal elements in their original order. *)
Fixpoint sort_insert {A : Type} (cmp : A -> A -> Z) (x : A) (l : list A)
  : list A :=
  match l with
  | [] => [x]
  | y :: l' =>
      if cmp x y <=? 0 then x :: y :: l' else y :: sort_insert cmp x l'
  end.

Fixpoint sort {A : Type} (cmp : A -> A -> Z) (l : list A) : list A :=
  match l with
  | [] => []
  | x :: l' => sort_insert cmp x (sort cmp l')
  end.

(** [Set<string>]: iteration is in insertion order, [add] of a member
    changes nothing.  A set is the list of its members in that order. *)
Definition Set_add (s : list string) (x : string) : list string :=
  if bool_decide (x ∈ s) then s else s ++ [x].

Definition Set_add_all (s xs : list string) : list string :=
  fold_left Set_add xs s.

(** [BigInt(Math.floor(x))] for a double [x]: the largest integer not
    above [x]; [BigInt] throws a [RangeError] on NaN and the infinities. *)
Definition BigInt_floor (x : float) : result Z :=
  match Prim2SF x with
  | S754_zero _ => Ok 0
  | S754_finite s m e =>
      let v := if s then Z.neg m else Z.pos m in
      Ok (if 0 <=? e then v * 2 ^ e else v / 2 ^ (- e))
  | S754_infinity _ => Err RangeError
  | S754_nan => Err RangeError
  end.

(** [a / b] on [bigint]. *)
Definition bigint_div (a b : Z) : result Z :=
  if b =? 0 then Err RangeError else Ok (Z.quot a b).

End Js.

(** ** Data model (src/types) *)

(** A JSON string that holds a number, by what [BigInt(..)] makes of it. *)
Inductive numstr : Type :=
| Dec (z : Z)
| NotANumber.

Definition BigInt (s : numstr) : result Z :=
  match s with
  | Dec z => Ok z
  | NotANumber => Err SyntaxError
  end.

Definition toString (z : Z) : numstr := Dec z.

Record Claim : Type := {
  recipient : string;
  token : string;
  amount : Z;
}.

(** [[recipient, token, amount]] *)
Definition Value : Type := (string * string * numstr)%type.

Record IndexedValue : Type := {
  treeIndex : Z;
  value : Value;
}.

Record Distribution : Type := {
  format : string;
  leafEncoding : list string;
  tree : list string;
  values : list IndexedValue;
  prevTreeCid : string;
  blockNumber : Z;
  totalDistributed : gmap string numstr;
}.

Record DistributorOptions : Type := {
  wrapperAddr : string;
  distributorAddr : string;
  operatorFee : float;
}.

(** ** The world outside the engine *)

Inductive BlockTag : Type :=
| Latest
| AtBlock (n : Z).

Record Filter : Type := {
  fromBlock : Z;
  toBlock : BlockTag;
  address : string;
  topics : list (option string);
}.

(** A log as the provider returns it, by what [Interface.parseLog] makes of
    it: the two events the engine decodes, a log whose first topic is an
    event of the interface but whose data does not decode ([parseLog]
    throws), and a log of some other event ([parseLog] returns [null]). *)
Inductive Log : Type :=
| ClaimedLog (recipient token : string) (amount : Z)
| DepositLog (sender owner : string) (assets shares : Z)
| MalformedLog
| ForeignLog.

Record World : Type := {
  distributor_cid : option string;
  distributor_root : option string;
  distributor_lastProcessedBlock : option Z;
  distributor_getTokens : option (list string);
  wrapper_totalSupply : option Z;
  wrapper_balanceOf : string -> option Z;
  (** [erc20_balanceOf token holder blockTag]; the inner [None] is a
      [null] answer. *)
  erc20_balanceOf : string -> string -> BlockTag -> option (option Z);
  provider_getBlockNumber : option Z;
  provider_getBlock : Z -> option unit;
  provider_getLogs : Filter -> option (list Log);
  ipfs_download : string -> option Distribution;
  ipfs_upload : Distribution -> option string;
}.

(** ** The Merkle library (@openzeppelin/merkle-tree)

    [StandardMerkleTree.of(values, leafEncoding)] hashes the values, sorts
    the hashes and builds the node array; [merkle_of] gives the root, the
    node array and, for the value at each input position, its position in
    the node array, or nothing when a value cannot be encoded (the library
    throws).  The values of the tree stay in input order.  [leaf_hash] and
    [hash_pair] are the leaf hash and the commutative pair hash;
    [merkle_load] and [merkle_getProof] are [StandardMerkleTree.load] and
    [tree.getProof(index)], either of which may throw on a blob that was
    not dumped by the library. *)

Record MerkleLib : Type := {
  merkle_of : list Value -> option (string * list string * (nat -> Z));
  leaf_hash : Value -> option string;
  hash_pair : string -> string -> string;
  merkle_load : Distribution -> bool;
  merkle_getProof : Distribution -> Z -> option (list string);
}.

Record StandardMerkleTree : Type := {
  root : string;
  dump_tree : list string;
  dump_values : list IndexedValue;
}.

Definition StandardMerkleTree_of (lib : MerkleLib) (vs : list Value)
  : result StandardMerkleTree :=
  match merkle_of lib vs with
  | None => Err MerkleFailure
  | Some (r, nodes, index) =>
      Ok {| root := r;
            dump_tree := nodes;
            dump_values := imap (fun i v => {| treeIndex := index i; value := v |}) vs |}
  end.

(** [ethers.id(signature)]: the topic hash of an event signature, kept
    symbolic. *)
Definition ethers_id (signature : string) : string :=
  String.append "keccak256:" signature.

Definition ZeroHash : string :=
  "0x0000000000000000000000000000000000000000000000000000000000000000".

Definition ZeroAddress : string :=
  "0x0000000000000000000000000000000000000000".

(** [Interface.parseLog] for the one-event interfaces the engine builds:
    [Ok (Some args)], [Ok None] for [null], [Err] when it throws. *)
Definition parseLog_Claimed (l : Log) : result (option (string * string * Z)) :=
  match l with
  | ClaimedLog r t a => Ok (Some (r, t, a))
  | MalformedLog => Err TypeError
  | DepositLog _ _ _ _ | ForeignLog => Ok None
  end.

Definition parseLog_Deposit (l : Log) : result (option (string * string * Z * Z)) :=
  match l with
  | DepositLog s o a sh => Ok (Some (s, o, a, sh))
  | MalformedLog => Err TypeError
  | ClaimedLog _ _ _ | ForeignLog => Ok None
  end.

(** [Promise]-style traversal: [xs.map(f)] where [f] may throw. *)
Fixpoint map_result {A B : Type} (f : A -> result B) (xs : list A)
  : result (list B) :=
  match xs with
  | [] => Ok []
  | x :: xs' =>
      let* y := f x in
      let* ys := map_result f xs' in
      Ok (y :: ys)
  end.

(** ** Distributor (src/distributor) *)

Record Generated : Type := {
  distribution : Distribution;
  merkleRoot : string;
  cid : string;
}.

(** [BigInt(1e18)] *)
Definition precision : Z := 1000000000000000000.

Definition claimedTopic : string := ethers_id "Claimed(address,address,uint256)".
Definition depositTopic : string :=
  ethers_id "Deposit(address,address,uint256,uint256)".

(** The comparator of [allClaims.sort]. *)
Definition compareClaims (a b : Claim) : Z :=
  let addrCompare := Js.localeCompare (recipient a) (recipient b) in
  if negb (addrCompare =? 0) then addrCompare
  else Js.localeCompare (token a) (token b).

Definition claim_of_value (v : IndexedValue) : result Claim :=
  let '(r, t, a) := value v in
  let* n := BigInt a in
  Ok {| recipient := r; token := t; amount := n |}.

Definition value_of_claim (c : Claim) : Value :=
  (recipient c, token c, toString (amount c)).

Module Distributor.
Section Engine.

Variable lib : MerkleLib.
Variable options : DistributorOptions.
Variable w : World.

Definition getPreviousDistributionInfo : option (string * string) :=
  match
    (let* cid := await RpcFailure (distributor_cid w) in
     let* merkleRoot := await RpcFailure (distributor_root w) in
     if (cid =? "")%string || (merkleRoot =? ZeroHash)%string
     then Ok None
     else Ok (Some (cid, merkleRoot)))
  with
  | Ok info => info
  | Err _ => None   (* catch: warn and return null *)
  end.

Definition generateMerkleTree (claims : list Claim) : result StandardMerkleTree :=
  match claims with
  | [] => Err NoClaims
  | _ => StandardMerkleTree_of lib (map value_of_claim claims)
  end.

Definition validatePreviousDistribution
    (previousDistribution : Distribution) (expectedMerkleRoot : string) : bool :=
  match
    (let* claims := map_result claim_of_value (values previousDistribution) in
     let* merkleTree := generateMerkleTree claims in
     Ok (root merkleTree =? expectedMerkleRoot)%string)
  with
  | Ok isValid => isValid
  | Err _ => false   (* catch: log and return false *)
  end.

Definition getDistributorTokenBalance (tokenAddr : string) : result Z :=
  let* balance :=
    await RpcFailure (erc20_balanceOf w tokenAddr (distributorAddr options) Latest) in
  match balance with
  | None => Err BalanceUnavailable
  | Some b => Ok b
  end.

Definition getDistributorBalanceAtBlock (tokenAddr : string) (blockNumber : Z)
  : result Z :=
  let* balance :=
    await RpcFailure
      (erc20_balanceOf w tokenAddr (distributorAddr options) (AtBlock blockNumber)) in
  Ok (default 0 balance).

Definition claimedFilter (tokenAddr : string) (fromBlock : Z) (toBlock : BlockTag)
  : Filter :=
  {| fromBlock := fromBlock;
     toBlock := toBlock;
     address := distributorAddr options;
     topics :=
       [ Some claimedTopic;
         None;
         Some (String.append "0x000000000000000000000000"
                 (Js.toLowerCase (Js.slice 2 tokenAddr))) ] |}.

Definition getClaimedAmountSinceLastReport
    (tokenAddr : string) (fromBlock : Z) (toBlock : BlockTag) : result Z :=
  let* logs :=
    await RpcFailure (provider_getLogs w (claimedFilter tokenAddr fromBlock toBlock)) in
  Ok (fold_left
        (fun totalClaimed log =>
           match parseLog_Claimed log with
           | Ok (Some (_, _, amount)) => totalClaimed + amount
           | Ok None => totalClaimed
           | Err _ => totalClaimed   (* catch: warn *)
           end)
        logs 0).

Definition calculateDistributableAmount
    (tokenAddr : string) (previousDistribution : option Distribution) : result Z :=
  let* currentBalance := getDistributorTokenBalance tokenAddr in
  match previousDistribution with
  | None => Ok currentBalance
  | Some prev =>
      let* claimedAmount :=
        getClaimedAmountSinceLastReport tokenAddr (blockNumber prev + 1) Latest in
      let* previousBalance :=
        getDistributorBalanceAtBlock tokenAddr (blockNumber prev) in
      let newDistributableAmount :=
        currentBalance - (previousBalance - claimedAmount) in
      Ok (if newDistributableAmount >? 0 then newDistributableAmount else 0)
  end.

Definition depositFilter (fromBlock toBlock : Z) : Filter :=
  {| fromBlock := fromBlock;
     toBlock := AtBlock toBlock;
     address := wrapperAddr options;
     topics := [ Some depositTopic ] |}.

Definition getWrapperUsers (fromBlock toBlock : Z) : result (list string) :=
  let* logs := await RpcFailure (provider_getLogs w (depositFilter fromBlock toBlock)) in
  let addresses :=
    fold_left
      (fun addresses log =>
         match parseLog_Deposit log with
         | Ok (Some (_, owner, _, _)) => Js.Set_add addresses owner
         | Ok None => addresses
         | Err _ => addresses   (* catch: warn *)
         end)
      logs [] in
  Ok (filter (fun addr => addr <> ZeroAddress) addresses).

Definition uploadToIPFS (d : Distribution) : result string :=
  await IpfsFailure (ipfs_upload w d).

(** Lines 81-95: the users of the previous distribution, then the new
    users, through a [Set]. *)
Definition allUsers (previousDistribution : option Distribution)
    (newUsers : list string) : list string :=
  let allUsersSet :=
    match previousDistribution with
    | Some prev => Js.Set_add_all [] (map (fun v => (value v).1.1) (values prev))
    | None => []
    end in
  Js.Set_add_all allUsersSet newUsers.

(** Lines 103-115: the map of the previous cumulative amounts. *)
Definition previousClaims_add (m : gmap string (gmap string Z)) (v : IndexedValue)
  : result (gmap string (gmap string Z)) :=
  let '(recipient, token, a) := value v in
  let* amount := BigInt a in
  let m1 := match m !! recipient with
            | None => <[recipient := ∅]> m
            | Some _ => m
            end in
  Ok (<[recipient := <[token := amount]> (default ∅ (m1 !! recipient))]> m1).

Definition buildPreviousClaims (previousDistribution : option Distribution)
  : result (gmap string (gmap string Z)) :=
  match previousDistribution with
  | Some prev => for_of previousClaims_add (values prev) ∅
  | None => Ok ∅
  end.

(** Lines 151-175: the body of the loop over the users, on the pair
    [(allClaims, tokenTotalAmount)]. *)
Definition processUser (totalSupply actualDistributableAmount : Z)
    (previousClaims : gmap string (gmap string Z)) (tokenAddr : string)
    (st : list Claim * Z) (user : string) : result (list Claim * Z) :=
  let '(allClaims, tokenTotalAmount) := st in
  let* effectiveBalance := await RpcFailure (wrapper_balanceOf w user) in
  if effectiveBalance <=? 0 then Ok st
  else
    let* userShare := Js.bigint_div (effectiveBalance * precision) totalSupply in
    let tokenAmount := Z.quot (actualDistributableAmount * userShare) precision in
    if tokenAmount >? 0 then
      let userPreviousClaims := default ∅ (previousClaims !! user) in
      let previousAmount := default 0 (userPreviousClaims !! tokenAddr) in
      let cumulativeAmount := previousAmount + tokenAmount in
      Ok (allClaims ++ [ {| recipient := user;
                            token := tokenAddr;
                            amount := cumulativeAmount |} ],
          tokenTotalAmount + tokenAmount)
    else Ok st.

(** Lines 125-178: the body of the loop over the tokens, on the pair
    [(allClaims, totalDistributed)]. *)
Definition processToken (previousDistribution : option Distribution)
    (users : list string) (totalSupply : Z)
    (previousClaims : gmap string (gmap string Z))
    (st : list Claim * gmap string numstr) (tokenAddr : string)
  : result (list Claim * gmap string numstr) :=
  let '(allClaims, totals) := st in
  let* tokenTotalAmount :=
    match previousDistribution with
    | Some prev => BigInt (default (Dec 0) (totalDistributed prev !! tokenAddr))
    | None => Ok 0
    end in
  let* distributableAmount :=
    calculateDistributableAmount tokenAddr previousDistribution in
  if distributableAmount <=? 0 then
    Ok (allClaims, <[tokenAddr := toString tokenTotalAmount]> totals)
  else
    let* feeBps := Js.BigInt_floor (operatorFee options * 100)%float in
    let operatorFeeAmount := Z.quot (distributableAmount * feeBps) 10000 in
    let actualDistributableAmount := distributableAmount - operatorFeeAmount in
    let* st' :=
      for_of (processUser totalSupply actualDistributableAmount previousClaims tokenAddr)
             users (allClaims, tokenTotalAmount) in
    Ok (st'.1, <[tokenAddr := toString st'.2]> totals).

(** Lines 49-66: the previous distribution, downloaded and validated. *)
Definition loadPreviousDistribution (previousInfo : option (string * string))
  : result (option Distribution) :=
  match previousInfo with
  | Some (cid, merkleRoot) =>
      let* previousDistribution := await IpfsFailure (ipfs_download w cid) in
      if validatePreviousDistribution previousDistribution merkleRoot
      then Ok (Some previousDistribution)
      else Err ValidationFailed
  | None => Ok None
  end.

(** Lines 68-201: the round, once the previous distribution is known. *)
Definition distribute (previousInfo : option (string * string))
    (previousDistribution : option Distribution) : result Generated :=
  let* lastProcessedBlock := await RpcFailure (distributor_lastProcessedBlock w) in
  let* currentBlock := await RpcFailure (provider_getBlockNumber w) in
  let* currentBlockData := await RpcFailure (provider_getBlock w currentBlock) in
  let* newUsers := getWrapperUsers lastProcessedBlock currentBlock in
  let users := allUsers previousDistribution newUsers in
  let* totalSupply := await RpcFailure (wrapper_totalSupply w) in
  let* previousClaims := buildPreviousClaims previousDistribution in
  let* tokens := await RpcFailure (distributor_getTokens w) in
  let* st :=
    for_of (processToken previousDistribution users totalSupply previousClaims)
           tokens ([], ∅) in
  let allClaims := st.1 in
  let totals := st.2 in
  let sorted := Js.sort compareClaims allClaims in
  let* merkleTree := generateMerkleTree sorted in
  let distribution :=
    {| format := "standard-v1";
       leafEncoding := [ "address"; "address"; "uint256" ];
       tree := dump_tree merkleTree;
       values := dump_values merkleTree;
       prevTreeCid := match previousInfo with
                      | Some (cid, _) => cid
                      | None => ""
                      end;
       blockNumber := currentBlock;
       totalDistributed := totals |} in
  let* cid := uploadToIPFS distribution in
  Ok {| distribution := distribution; merkleRoot := root merkleTree; cid := cid |}.

Definition generateDistribution : result Generated :=
  let previousInfo := getPreviousDistributionInfo in
  let* previousDistribution := loadPreviousDistribution previousInfo in
  distribute previousInfo previousDistribution.

End Engine.
End Distributor.

(** ** ProofGenerator (src/proof-generator) *)

Module ProofGenerator.

(** [{ proof, value, treeIndex }]; [pr_value] is [None] for the empty
    array of the [value?.value || []] fallback. *)
Record ProofResult : Type := {
  pr_proof : list string;
  pr_value : option Value;
  pr_treeIndex : Z;
}.

(** [Array.prototype.findIndex]: the first index whose element satisfies
    the predicate, [-1] when there is none. *)
Fixpoint findIndex_from {A : Type} (p : A -> bool) (l : list A) (i : Z) : Z :=
  match l with
  | [] => -1
  | x :: l' => if p x then i else findIndex_from p l' (i + 1)
  end.

Definition findIndex {A : Type} (p : A -> bool) (l : list A) : Z :=
  findIndex_from p l 0.

Section Proofs.

Variable lib : MerkleLib.

Definition load (d : Distribution) : result Distribution :=
  if merkle_load lib d then Ok d else Err MerkleFailure.

Definition same_recipient (recipient : string) (v : IndexedValue) : bool :=
  (Js.toLowerCase (value v).1.1 =? Js.toLowerCase recipient)%string.

Definition generateProofForRecipient (d : Distribution) (recipient : string)
  : result (option ProofResult) :=
  let* merkleTree := load d in
  let recipientIndex := findIndex (same_recipient recipient) (values d) in
  if recipientIndex =? -1 then Ok None
  else
    let* proof := await MerkleFailure (merkle_getProof lib merkleTree recipientIndex) in
    let v := values d !! Z.to_nat recipientIndex in
    Ok (Some {| pr_proof := proof;
                pr_value := value <$> v;
                pr_treeIndex := recipientIndex |}).

Definition generateProofByIndex (d : Distribution) (index : Z)
  : result (option ProofResult) :=
  if (index <? 0) || (index >=? Z.of_nat (length (values d))) then Ok None
  else
    let* merkleTree := load d in
    let* proof := await MerkleFailure (merkle_getProof lib merkleTree index) in
    let v := values d !! Z.to_nat index in
    Ok (Some {| pr_proof := proof;
                pr_value := value <$> v;
                pr_treeIndex := default 0 (treeIndex <$> v) |}).

(** [{ value, treeIndex }] of the first row that names the recipient;
    [None] is [null]. *)
Definition getRecipientInfo (d : Distribution) (recipient : string)
  : option (option Value * Z) :=
  let recipientIndex := findIndex (same_recipient recipient) (values d) in
  if recipientIndex =? -1 then None
  else Some (value <$> values d !! Z.to_nat recipientIndex, recipientIndex).

(** [{ address, amount, treeIndex }] for every row, in the order of
    [values]. *)
Definition getAllRecipients (d : Distribution) : list (string * numstr * Z) :=
  imap (fun index v => ((value v).1.1, (value v).2, Z.of_nat index)) (values d).

(** [tree.verify(leaf, proof)]: the proof is folded over the leaf hash
    with the pair hash and the outcome compared with the root of [tree]. *)
Definition verify (t : StandardMerkleTree) (leaf : Value) (proof : list string)
  : result bool :=
  let* h := await MerkleFailure (leaf_hash lib leaf) in
  Ok (root t =? fold_left (hash_pair lib) proof h)%string.

Definition verifyProof (v : Value) (proof : list string) (root : string)
  : result bool :=
  let* t := StandardMerkleTree_of lib [v] in
  verify t v proof.

End Proofs.
End ProofGenerator.

(** ** Reading a blob *)

Definition rows (d : Distribution) : list Value := map value (values d).

(** The sum of the cumulative amounts of the rows of one token. *)
Definition tokenSum (T : string) (vs : list Value) : Z :=
  fold_right
    (fun v acc =>
       match v with
       | (_, t, Dec z) => if (t =? T)%string then z + acc else acc
       | (_, _, NotANumber) => acc
       end)
    0 vs.

(** The order of the specification on rows: the pair of lowercase
    addresses, compared by code units. *)
Definition lower_pair_leb (a b : Value) : bool :=
  match String.compare (Js.toLowerCase a.1.1) (Js.toLowerCase b.1.1) with
  | Lt => true
  | Gt => false
  | Eq =>
      match String.compare (Js.toLowerCase a.1.2) (Js.toLowerCase b.1.2) with
      | Gt => false
      | _ => true
      end
  end.

Definition lower_pair_le (a b : Value) : Prop := lower_pair_leb a b = true.

(** The order of the code on rows. *)
Definition compareValues (a b : Value) : Z :=
  let addrCompare := Js.localeCompare a.1.1 b.1.1 in
  if negb (addrCompare =? 0) then addrCompare
  else Js.localeCompare a.1.2 b.1.2.

Definition code_le (a b : Value) : Prop := compareValues a b <= 0.

(** ** Concrete worlds

    A stand-in for the Merkle library, good enough to run the engine: a leaf
    is the text of its value with the addresses in lowercase (the ABI
    encoding of an address does not depend on letter case), the root is the
    text of all leaves. *)

Module Scenario.

Definition leaf_text (v : Value) : option string :=
  match v with
  | (r, t, Dec z) =>
      Some (String.append (Js.toLowerCase r)
              (String.append ":" (String.append (Js.toLowerCase t)
                 (String.append ":" (pretty z)))))
  | (_, _, NotANumber) => None
  end.

Fixpoint leaves (vs : list Value) : option (list string) :=
  match vs with
  | [] => Some []
  | v :: vs' =>
      match leaf_text v, leaves vs' with
      | Some h, Some hs => Some (h :: hs)
      | _, _ => None
      end
  end.

Definition text_of (vs : list Value) : option (string * list string * (nat -> Z)) :=
  match leaves vs with
  | Some hs => Some (String.append "0xroot:" (String.concat ";" hs), hs, Z.of_nat)
  | None => None
  end.

Definition text_lib : MerkleLib :=
  {| merkle_of := text_of;
     leaf_hash := leaf_text;
     hash_pair := String.append;
     merkle_load := fun _ => true;
     merkle_getProof := fun _ _ => Some [] |}.

Definition user1 : string := "0x1111111111111111111111111111111111111111".
Definition user2 : string := "0x2222222222222222222222222222222222222222".
Definition user3 : string := "0x14dC79964da2C08b23698B3D3cc7Ca32193d9955".
Definition tokenA : string := "0x5FC8d32690cc91D4c39d9d3abcBD16989F875707".
Definition tokenB : string := "0xDc64a140Aa3E981100a9becA4E685f962f0cF6C9".
Definition wrapper : string := "0xC1e0A9DB9eA830c52603798481045688c8AE99C2".
Definition distributor : string := "0x0fe4223AD99dF788A6Dcad148eB4086E6389cEB6".

Definition options_fee (fee : float) : DistributorOptions :=
  {| wrapperAddr := wrapper; distributorAddr := distributor; operatorFee := fee |}.

Definition blob (vs : list Value) (prev : string) (block : Z)
    (totals : list (string * numstr)) : Distribution :=
  {| format := "standard-v1";
     leafEncoding := [ "address"; "address"; "uint256" ];
     tree := default [] (leaves vs);
     values := imap (fun i v => {| treeIndex := Z.of_nat i; value := v |}) vs;
     prevTreeCid := prev;
     blockNumber := block;
     totalDistributed := list_to_map totals |}.

Definition root_of (vs : list Value) : string :=
  match text_of vs with
  | Some (r, _, _) => r
  | None => ""
  end.

(** Round 1 (genesis): two depositors with 1e18 and 3e18 of a supply of
    4e18; the distributor holds 1e18 of token A and 2000 of token B. *)
Definition round1 : World :=
  {| distributor_cid := Some "";
     distributor_root := Some ZeroHash;
     distributor_lastProcessedBlock := Some 0;
     distributor_getTokens := Some [tokenA; tokenB];
     wrapper_totalSupply := Some 4000000000000000000;
     wrapper_balanceOf := fun u =>
       if (u =? user1)%string then Some 1000000000000000000
       else if (u =? user2)%string then Some 3000000000000000000
       else Some 0;
     erc20_balanceOf := fun t _ _ =>
       if (t =? tokenA)%string then Some (Some 1000000000000000000)
       else Some (Some 2000);
     provider_getBlockNumber := Some 17;
     provider_getBlock := fun _ => Some tt;
     provider_getLogs := fun f =>
       if (address f =? wrapper)%string
       then Some [ DepositLog user1 user1 1 1000000000000000000;
                   DepositLog user2 user2 3 3000000000000000000 ]
       else Some [];
     ipfs_download := fun _ => None;
     ipfs_upload := fun _ => Some "bafy-round-1" |}.

Definition round1_values : list Value :=
  [ (user1, tokenA, Dec 250000000000000000);
    (user1, tokenB, Dec 500);
    (user2, tokenA, Dec 750000000000000000);
    (user2, tokenB, Dec 1500) ].

Definition round1_blob : Distribution :=
  blob round1_values "" 17
    [ (tokenA, Dec 1000000000000000000); (tokenB, Dec 2000) ].

(** Round 2, on top of round 1: nobody claimed, 100 units of token A
    arrived and nothing of token B; user 2 has left the wrapper, user 1
    holds the whole supply. *)
Definition round2 : World :=
  {| distributor_cid := Some "bafy-round-1";
     distributor_root := Some (root_of round1_values);
     distributor_lastProcessedBlock := Some 17;
     distributor_getTokens := Some [tokenA; tokenB];
     wrapper_totalSupply := Some 1000000000000000000;
     wrapper_balanceOf := fun u =>
       if (u =? user1)%string then Some 1000000000000000000 else Some 0;
     erc20_balanceOf := fun t _ tag =>
       if (t =? tokenA)%string then
         match tag with
         | Latest => Some (Some 1000000000000000100)
         | AtBlock _ => Some (Some 1000000000000000000)
         end
       else Some (Some 2000);
     provider_getBlockNumber := Some 40;
     provider_getBlock := fun _ => Some tt;
     provider_getLogs := fun f =>
       if (address f =? wrapper)%string
       then Some [ DepositLog user1 user1 1 1 ]
       else Some [];
     ipfs_download := fun c =>
       if (c =? "bafy-round-1")%string then Some round1_blob else None;
     ipfs_upload := fun _ => Some "bafy-round-2" |}.


(** A round on top of a blob that spells the address of user 3 in
    lowercase, while the Deposit event of the same account carries its
    checksummed spelling; 100 units of each token arrived. *)
Definition user3_lower : string := Eval vm_compute in Js.toLowerCase user3.

Definition lowercase_values : list Value :=
  [ (user3_lower, tokenA, Dec 10); (user3_lower, tokenB, Dec 20) ].

Definition lowercase_blob : Distribution :=
  blob lowercase_values "" 17 [ (tokenA, Dec 10); (tokenB, Dec 20) ].

Definition mixed_case : World :=
  {| distributor_cid := Some "bafy-lowercase";
     distributor_root := Some (root_of lowercase_values);
     distributor_lastProcessedBlock := Some 17;
     distributor_getTokens := Some [tokenA; tokenB];
     wrapper_totalSupply := Some 1000000000000000000;
     wrapper_balanceOf := fun u =>
       if (Js.toLowerCase u =? user3_lower)%string
       then Some 1000000000000000000 else Some 0;
     erc20_balanceOf := fun _ _ tag =>
       match tag with
       | Latest => Some (Some 1100)
       | AtBlock _ => Some (Some 1000)
       end;
     provider_getBlockNumber := Some 40;
     provider_getBlock := fun _ => Some tt;
     provider_getLogs := fun f =>
       if (address f =? wrapper)%string
       then Some [ DepositLog user3 user3 1 1000000000000000000 ]
       else Some [];
     ipfs_download := fun c =>
       if (c =? "bafy-lowercase")%string then Some lowercase_blob else None;
     ipfs_upload := fun _ => Some "bafy-mixed" |}.

(** The chain of round 2, but the contract reports the zero hash as its
    root next to the cid of round 1. *)
Definition zero_root : World :=
  {| distributor_cid := Some "bafy-round-1";
     distributor_root := Some ZeroHash;
     distributor_lastProcessedBlock := distributor_lastProcessedBlock round2;
     distributor_getTokens := distributor_getTokens round2;
     wrapper_totalSupply := wrapper_totalSupply round2;
     wrapper_balanceOf := wrapper_balanceOf round2;
     erc20_balanceOf := erc20_balanceOf round2;
     provider_getBlockNumber := provider_getBlockNumber round2;
     provider_getBlock := provider_getBlock round2;
     provider_getLogs := provider_getLogs round2;
     ipfs_download := ipfs_download round2;
     ipfs_upload := ipfs_upload round2 |}.




(** A previous blob that was not written by this engine: its recipients
    are not in order and the zero address is one of them. *)
Definition foreign_values : list Value :=
  [ (user2, tokenA, Dec 5); (ZeroAddress, tokenA, Dec 7) ].

Definition foreign_blob : Distribution :=
  blob foreign_values "" 17 [ (tokenA, Dec 12) ].

Definition after_foreign : World :=
  {| distributor_cid := Some "bafy-foreign";
     distributor_root := Some (root_of foreign_values);
     distributor_lastProcessedBlock := Some 17;
     distributor_getTokens := Some [tokenA];
     wrapper_totalSupply := Some 1000000000000000000;
     wrapper_balanceOf := wrapper_balanceOf round2;
     erc20_balanceOf := erc20_balanceOf round2;
     provider_getBlockNumber := Some 40;
     provider_getBlock := fun _ => Some tt;
     provider_getLogs := fun f =>
       if (address f =? wrapper)%string
       then Some [ DepositLog user1 user1 1 1;
                   DepositLog user1 ZeroAddress 1 1;
                   DepositLog user2 user2 1 1 ]
       else Some [];
     ipfs_download := fun c =>
       if (c =? "bafy-foreign")%string then Some foreign_blob else None;
     ipfs_upload := fun _ => Some "bafy-after-foreign" |}.


(** What the round on [round1] returns. *)
Definition round1_generated : Generated :=
  {| distribution := round1_blob;
     merkleRoot := root_of round1_values;
     cid := "bafy-round-1" |}.

(** The chain of round 1 once its blob is published. *)
Definition round1_published : World :=
  {| distributor_cid := Some "bafy-round-1";
     distributor_root := Some (root_of round1_values);
     distributor_lastProcessedBlock := Some 17;
     distributor_getTokens := distributor_getTokens round1;
     wrapper_totalSupply := wrapper_totalSupply round1;
     wrapper_balanceOf := wrapper_balanceOf round1;
     erc20_balanceOf := erc20_balanceOf round1;
     provider_getBlockNumber := Some 18;
     provider_getBlock := provider_getBlock round1;
     provider_getLogs := fun _ => Some [];
     ipfs_download := fun c =>
       if (c =? "bafy-round-1")%string then Some round1_blob else None;
     ipfs_upload := fun _ => Some "bafy-round-1-again" |}.

(** A stand-in for the library in which, as in the library itself, the
    root of a tree of one leaf is the hash of that leaf. *)
Definition leaf_lib : MerkleLib :=
  {| merkle_of := fun vs =>
       match vs with
       | [v] => match leaf_text v with
                | Some h => Some (h, [h], Z.of_nat)
                | None => None
                end
       | _ => text_of vs
       end;
     leaf_hash := leaf_text;
     hash_pair := String.append;
     merkle_load := fun _ => true;
     merkle_getProof := fun _ _ => Some [] |}.


(** The chain of round 1 with a wrapper that reports a total supply of
    zero. *)
Definition zero_supply : World :=
  {| distributor_cid := distributor_cid round1;
     distributor_root := distributor_root round1;
     distributor_lastProcessedBlock := distributor_lastProcessedBlock round1;
     distributor_getTokens := distributor_getTokens round1;
     wrapper_totalSupply := Some 0;
     wrapper_balanceOf := wrapper_balanceOf round1;
     erc20_balanceOf := erc20_balanceOf round1;
     provider_getBlockNumber := provider_getBlockNumber round1;
     provider_getBlock := provider_getBlock round1;
     provider_getLogs := provider_getLogs round1;
     ipfs_download := ipfs_download round1;
     ipfs_upload := ipfs_upload round1 |}.

End Scenario.


(** ** What the specification says, in the terms of the code *)


(** The apportioning of section 4.F: the allocation of a holder of [b]
    shares out of [S], for a distributable amount [D] and a fee of [bps]
    basis points. *)
Definition alloc (D bps S b : Z) : Z :=
  let fee := Z.quot (D * bps) 10000 in
  let actual := D - fee in
  Z.quot (actual * Z.quot (b * 10 ^ 18) S) (10 ^ 18).

(** The rows emitted for one token, and what they add up to. *)
Definition emitted (D bps S : Z) (bal : string -> Z) (prevAmount : string -> Z)
    (T : string) (users : list string) : list Claim :=
  flat_map
    (fun u =>
       if bal u =? 0 then []
       else if 0 <? alloc D bps S (bal u)
            then [ {| recipient := u; token := T;
                      amount := prevAmount u + alloc D bps S (bal u) |} ]
            else [])
    users.

Definition allocated (D bps S : Z) (bal : string -> Z) (users : list string) : Z :=
  fold_right
    (fun u acc =>
       if bal u =? 0 then acc
       else if 0 <? alloc D bps S (bal u) then alloc D bps S (bal u) + acc
            else acc)
    0 users.

(** The recipients of the previous blob and the owners of the Deposit
    events, in the order in which the code meets them. *)
Definition previousRecipients (previousDistribution : option Distribution)
  : list string :=
  match previousDistribution with
  | Some prev => map (fun v => (value v).1.1) (values prev)
  | None => []
  end.

Definition depositOwners (logs : list Log) : list string :=
  flat_map
    (fun l =>
       match l with
       | DepositLog _ owner _ _ => [owner]
       | _ => []
       end)
    logs.

(** A list without its repetitions, every member at its first place. *)
Definition first_occurrences (l : list string) : list string :=
  reverse (remove_dups (reverse l)).

(** A row names a recipient when the two addresses are equal up to letter
    case. *)
Definition names (recipient : string) (v : IndexedValue) : Prop :=
  Js.toLowerCase (value v).1.1 = Js.toLowerCase recipient.

(** Addresses in ascending order of their lowercase hex form. *)
Definition address_le (a b : string) : Prop :=
  String.compare (Js.toLowerCase a) (Js.toLowerCase b) <> Gt.

(** The root rebuilt from the values of a blob: there is none when the blob
    has no values, when an amount is not a number, or when the library
    cannot encode a value. *)
Definition all_numbers (vs : list Value) : bool :=
  forallb (fun v => match v with (_, _, Dec _) => true | _ => false end) vs.

Definition rebuiltRoot (lib : MerkleLib) (d : Distribution) : option string :=
  match rows d with
  | [] => None
  | vs =>
      if all_numbers vs
      then match merkle_of lib vs with
           | Some (r, _, _) => Some r
           | None => None
           end
      else None
  end.

(** The cumulative amount of a pair in the previous blob: the amount of
    the last row of the pair, zero when there is no previous blob or no such
    row. *)
Fixpoint lastAmount (vs : list Value) (r t : string) : option Z :=
  match vs with
  | [] => None
  | (r', t', a) :: vs' =>
      match lastAmount vs' r t with
      | Some z => Some z
      | None =>
          if bool_decide (r' = r /\ t' = t)
          then match a with Dec z => Some z | NotANumber => None end
          else None
      end
  end.

Definition previousCumulative (prev : option Distribution) (r t : string) : Z :=
  match prev with
  | Some d => default 0 (lastAmount (rows d) r t)
  | None => 0
  end.

(** What the rows of one token add to the previous cumulative amounts of
    their pairs. *)
Definition gainSum (prev : option Distribution) (T : string) (vs : list Value) : Z :=
  fold_right
    (fun v acc =>
       match v with
       | (r, t, Dec z) =>
           if (t =? T)%string then (z - previousCumulative prev r t) + acc else acc
       | (_, _, NotANumber) => acc
       end)
    0 vs.

(** The (recipient, token) pair of a row. *)
Definition pair_of (v : Value) : string * string := (v.1.1, v.1.2).

(** The same on the claims of the engine, against its map of previous
    claims. *)
Definition claimGain (previousClaims : gmap string (gmap string Z)) (c : Claim) : Z :=
  amount c - default 0 (default ∅ (previousClaims !! recipient c) !! token c).

Definition claimGainSum (previousClaims : gmap string (gmap string Z)) (T : string)
    (claims : list Claim) : Z :=
  fold_right
    (fun c acc =>
       if (token c =? T)%string then claimGain previousClaims c + acc else acc)
    0 claims.

(** A claim pushed in this round for token [T]: its recipient holds shares
    and its amount exceeds the previous cumulative amount of the pair. *)
Definition new_row (w : World) (previousClaims : gmap string (gmap string Z))
    (T : string) (c : Claim) : Prop :=
  token c = T /\
  (exists b, wrapper_balanceOf w (recipient c) = Some b /\ 0 < b) /\
  0 < claimGain previousClaims c.

(** The total of a token in the previous blob, as the engine reads it. *)
Definition previousTotal (prev : option Distribution) (T : string) : result Z :=
  match prev with
  | Some d => BigInt (default (Dec 0) (totalDistributed d !! T))
  | None => Ok 0
  end.

(** The shares held by a list of users. *)
Definition heldShares (bal : string -> Z) (users : list string) : Z :=
  fold_right (fun u acc => bal u + acc) 0 users.

(** * Properties *)

(** ** The primitives at work *)

Example toLowerCase_checksummed :
  Js.toLowerCase "0x14dC79964da2C08b23698B3D3cc7Ca32193d9955"
  = "0x14dc79964da2c08b23698b3d3cc7ca32193d9955".
Proof. reflexivity. Qed.

(** Letter case is ignored first: [a] comes before [B], although the code
    unit of [B] is the smaller one; on a tie the lowercase letter is first. *)
Example localeCompare_case_insensitive : Js.localeCompare "0xa" "0xB" = -1.
Proof. reflexivity. Qed.

Example localeCompare_lowercase_first : Js.localeCompare "0xa" "0xA" = -1.
Proof. reflexivity. Qed.

Example sort_is_stable :
  Js.sort (fun a b : Z * Z => a.1 - b.1) [ (2, 0); (1, 1); (2, 2); (1, 3) ]
  = [ (1, 1); (1, 3); (2, 0); (2, 2) ].
Proof. reflexivity. Qed.

Example Set_keeps_insertion_order :
  Js.Set_add_all [] [ "b"; "a"; "b"; "c"; "a" ] = [ "b"; "a"; "c" ].
Proof. reflexivity. Qed.

(** A fee of 10 percent is 1000 basis points.  The double written [0.29]
    lies below 0.29 and so does its product with 100: the floor is 28. *)
Example BigInt_floor_ten_percent : Js.BigInt_floor (10 * 100)%float = Ok 1000.
Proof. reflexivity. Qed.

Example BigInt_floor_inexact :
  Js.BigInt_floor (0x1.28f5c28f5c28fp-2 * 100)%float = Ok 28.
Proof. reflexivity. Qed.

Example BigInt_floor_NaN : Js.BigInt_floor (0 / 0)%float = Err RangeError.
Proof. reflexivity. Qed.

Example bigint_div_truncates : Js.bigint_div (-7) 2 = Ok (-3).
Proof. reflexivity. Qed.

(** ** The exception monad *)

Lemma bind_Ok {A B : Type} (c : result A) (k : A -> result B) (b : B) :
  bind c k = Ok b <-> exists a, c = Ok a /\ k a = Ok b.
Proof.
  destruct c as [a|e]; simpl; split.
  - intros H. exists a. split; [reflexivity | exact H].
  - intros (a' & Ha & Hk). injection Ha as <-. exact Hk.
  - discriminate.
  - intros (a' & Ha & _). discriminate.
Qed.

(** ** Round reconciler *)

Section Reconciler.

Variable options : DistributorOptions.
Variable w : World.




End Reconciler.


(** ** Apportioner *)

Lemma precision_pow : precision = 10 ^ 18.
Proof. reflexivity. Qed.

Section Apportioner.

Variable options : DistributorOptions.
Variable w : World.

Variable S : Z.
Variable previousClaims : gmap string (gmap string Z).
Variable T : string.
Variable bal : string -> Z.
Variables D bps : Z.

Let previousAmount (u : string) : Z :=
  default 0 (default ∅ (previousClaims !! u) !! T).

Lemma processUser_loop (users : list string) (allClaims : list Claim) (total : Z) :
  S <> 0 ->
  (forall u, u ∈ users -> wrapper_balanceOf w u = Some (bal u) /\ 0 <= bal u) ->
  for_of (Distributor.processUser w S (D - Z.quot (D * bps) 10000) previousClaims T)
         users (allClaims, total)
  = Ok (allClaims ++ emitted D bps S bal previousAmount T users,
        total + allocated D bps S bal users).
Proof.
  intros HS. revert allClaims total.
  induction users as [|u users IH]; intros allClaims total Hbal; simpl.
  - rewrite app_nil_r, Z.add_0_r. reflexivity.
  - destruct (Hbal u) as [Hu Hpos]; [left|].
    rewrite Hu. simpl.
    assert (Hrest : forall u', u' ∈ users ->
              wrapper_balanceOf w u' = Some (bal u') /\ 0 <= bal u')
      by (intros u' Hin; apply Hbal; right; exact Hin).
    destruct (Z.leb_spec (bal u) 0) as [Hle|Hgt].
    + assert (Hz : bal u = 0) by lia.
      rewrite Hz. simpl. rewrite IH by exact Hrest. reflexivity.
    + destruct (Z.eqb_spec (bal u) 0) as [Hz|_]; [lia|].
      unfold Js.bigint_div.
      destruct (Z.eqb_spec S 0) as [|_]; [contradiction|]. simpl.
      rewrite Z.gtb_ltb. unfold alloc. rewrite <- precision_pow.
      destruct (0 <? _); simpl.
      * rewrite IH by exact Hrest. rewrite <- app_assoc. simpl.
        f_equal. f_equal. lia.
      * rewrite IH by exact Hrest. reflexivity.
Qed.


End Apportioner.


(** ** Orders on strings *)

Module StringOrder.

Lemma ascii_compare_refl (a : ascii) : Ascii.compare a a = Eq.
Proof. unfold Ascii.compare. apply N.compare_refl. Qed.

Lemma compare_refl (s : string) : String.compare s s = Eq.
Proof.
  induction s as [|a s IH]; simpl; [reflexivity|].
  rewrite ascii_compare_refl. exact IH.
Qed.

Lemma compare_Eq (a b : string) : String.compare a b = Eq <-> a = b.
Proof.
  split; [apply String.compare_eq_iff | intros ->; apply compare_refl].
Qed.

Lemma compare_lt_trans (a b c : string) :
  String.compare a b = Lt -> String.compare b c = Lt -> String.compare a c = Lt.
Proof.
  revert b c. induction a as [|x a IH]; intros [|y b] [|z c]; simpl;
    try discriminate; try reflexivity.
  destruct (Ascii.compare x y) eqn:Hxy; try discriminate;
    destruct (Ascii.compare y z) eqn:Hyz; try discriminate; intros Hab Hbc.
  - apply Ascii.compare_eq_iff in Hxy, Hyz. subst.
    rewrite ascii_compare_refl. eapply IH; eassumption.
  - apply Ascii.compare_eq_iff in Hxy. subst. rewrite Hyz. reflexivity.
  - apply Ascii.compare_eq_iff in Hyz. subst. rewrite Hxy. reflexivity.
  - unfold Ascii.compare in *.
    rewrite N.compare_lt_iff in Hxy, Hyz.
    assert (H : (N_of_ascii x ?= N_of_ascii z)%N = Lt)
      by (apply N.compare_lt_iff; lia).
    rewrite H. reflexivity.
Qed.

Definition le (a b : string) : Prop := String.compare a b <> Gt.

Lemma le_cases (a b : string) : le a b <-> String.compare a b = Lt \/ a = b.
Proof.
  unfold le. rewrite <- compare_Eq.
  destruct (String.compare a b); split; intros H; try congruence; auto.
  - destruct H; congruence.
Qed.

Lemma le_trans (a b c : string) : le a b -> le b c -> le a c.
Proof.
  rewrite !le_cases. intros [Hab| ->] [Hbc| ->]; auto.
  left. eapply compare_lt_trans; eassumption.
Qed.

(** What [localeCompare] decides. *)
Lemma localeCompare_le (a b : string) :
  Js.localeCompare a b <= 0 <->
  String.compare (Js.toLowerCase a) (Js.toLowerCase b) = Lt \/
  (Js.toLowerCase a = Js.toLowerCase b /\ le b a).
Proof.
  unfold Js.localeCompare, le. rewrite <- compare_Eq.
  destruct (String.compare (Js.toLowerCase a) (Js.toLowerCase b)); simpl.
  - destruct (String.compare b a); simpl; split; intros H;
      try lia; auto; try (right; split; congruence).
    destruct H as [H|[_ H]]; congruence.
  - split; [auto | lia].
  - split; [lia | intros [H|[H _]]; congruence].
Qed.

Lemma localeCompare_0 (a b : string) : Js.localeCompare a b = 0 <-> a = b.
Proof.
  unfold Js.localeCompare. split.
  - destruct (String.compare (Js.toLowerCase a) (Js.toLowerCase b));
      simpl; try lia.
    destruct (String.compare b a) eqn:H; simpl; try lia.
    intros _. symmetry. apply compare_Eq. exact H.
  - intros ->. rewrite !compare_refl. reflexivity.
Qed.

Lemma localeCompare_antisym (a b : string) :
  Js.localeCompare a b = - Js.localeCompare b a.
Proof.
  unfold Js.localeCompare.
  rewrite (String.compare_antisym (Js.toLowerCase b) (Js.toLowerCase a)).
  rewrite (String.compare_antisym a b).
  destruct (String.compare (Js.toLowerCase a) (Js.toLowerCase b)); simpl;
    try reflexivity.
  destruct (String.compare b a); reflexivity.
Qed.

Lemma localeCompare_trans (a b c : string) :
  Js.localeCompare a b <= 0 -> Js.localeCompare b c <= 0 ->
  Js.localeCompare a c <= 0.
Proof.
  rewrite !localeCompare_le.
  intros [Hab|[Hab Hba]] [Hbc|[Hbc Hcb]].
  - left. eapply compare_lt_trans; eassumption.
  - left. rewrite <- Hbc. exact Hab.
  - left. rewrite Hab. exact Hbc.
  - right. split; [congruence | eapply le_trans; eassumption].
Qed.

End StringOrder.

(** ** Sorting *)

Section Sort.

Context {A : Type} (cmp : A -> A -> Z).

Hypothesis cmp_total : forall a b, 0 < cmp a b -> cmp b a <= 0.
Hypothesis cmp_trans : forall a b c, cmp a b <= 0 -> cmp b c <= 0 -> cmp a c <= 0.

Let R (a b : A) : Prop := cmp a b <= 0.

Lemma sort_insert_Permutation (x : A) (l : list A) :
  Js.sort_insert cmp x l ≡ₚ x :: l.
Proof.
  induction l as [|y l IH]; simpl; [reflexivity|].
  destruct (cmp x y <=? 0); [reflexivity|].
  rewrite IH. apply Permutation_swap.
Qed.

Lemma sort_Permutation (l : list A) : Js.sort cmp l ≡ₚ l.
Proof.
  induction l as [|x l IH]; simpl; [reflexivity|].
  rewrite sort_insert_Permutation, IH. reflexivity.
Qed.

Lemma sort_insert_StronglySorted (x : A) (l : list A) :
  StronglySorted R l -> StronglySorted R (Js.sort_insert cmp x l).
Proof.
  induction l as [|y l IH]; intros Hl; simpl.
  - repeat constructor.
  - apply StronglySorted_inv in Hl as [Hl Hy].
    destruct (Z.leb_spec (cmp x y) 0) as [Hxy|Hxy].
    + constructor; [constructor; assumption|].
      constructor; [exact Hxy|].
      eapply Forall_impl; [exact Hy|].
      intros z Hyz. unfold R in *. eapply cmp_trans; eassumption.
    + constructor; [apply IH; exact Hl|].
      rewrite Forall_forall. intros z Hz.
      rewrite sort_insert_Permutation in Hz.
      apply elem_of_cons in Hz as [->|Hz].
      * apply cmp_total. exact Hxy.
      * rewrite Forall_forall in Hy. apply Hy. exact Hz.
Qed.

Lemma sort_StronglySorted (l : list A) : StronglySorted R (Js.sort cmp l).
Proof.
  induction l as [|x l IH]; simpl; [constructor|].
  apply sort_insert_StronglySorted. exact IH.
Qed.

End Sort.

Lemma StronglySorted_weaken {A : Type} (R1 R2 : A -> A -> Prop) (l : list A) :
  (forall a b, a ∈ l -> b ∈ l -> R1 a b -> R2 a b) ->
  StronglySorted R1 l -> StronglySorted R2 l.
Proof.
  induction l as [|x l IH]; intros Himp Hl; [constructor|].
  apply StronglySorted_inv in Hl as [Hl Hx].
  constructor.
  - apply IH; [|exact Hl].
    intros a b Ha Hb. apply Himp; right; assumption.
  - rewrite Forall_forall in *. intros y Hy.
    apply Himp; [left | right; exact Hy | apply Hx; exact Hy].
Qed.

(** The comparator of the code is a consistent comparator. *)

Lemma compareValues_le (a b : Value) :
  compareValues a b <= 0 <->
  (Js.localeCompare a.1.1 b.1.1 <= 0 /\ a.1.1 <> b.1.1) \/
  (a.1.1 = b.1.1 /\ Js.localeCompare a.1.2 b.1.2 <= 0).
Proof.
  unfold compareValues.
  pose proof (StringOrder.localeCompare_0 a.1.1 b.1.1) as H0.
  destruct (Z.eqb_spec (Js.localeCompare a.1.1 b.1.1) 0) as [He|Hne]; simpl.
  - split; [intros H; right; split; [apply H0; exact He | exact H]|].
    intros [[_ Hn]|[_ H]]; [|exact H]. exfalso. apply Hn, H0, He.
  - split; [intros H; left; split; [exact H|intros E; apply Hne, H0, E]|].
    intros [[H _]|[E _]]; [exact H|]. exfalso. apply Hne, H0, E.
Qed.

Lemma compareValues_total (a b : Value) :
  0 < compareValues a b -> compareValues b a <= 0.
Proof.
  unfold compareValues.
  rewrite (StringOrder.localeCompare_antisym b.1.1 a.1.1).
  rewrite (StringOrder.localeCompare_antisym b.1.2 a.1.2).
  destruct (Z.eqb_spec (Js.localeCompare a.1.1 b.1.1) 0) as [He|Hne];
    destruct (Z.eqb_spec (- Js.localeCompare a.1.1 b.1.1) 0); simpl; lia.
Qed.

Lemma compareValues_trans (a b c : Value) :
  compareValues a b <= 0 -> compareValues b c <= 0 -> compareValues a c <= 0.
Proof.
  rewrite !compareValues_le.
  intros [[Hab Nab]|[Eab Tab]] [[Hbc Nbc]|[Ebc Tbc]].
  - left. split; [eapply StringOrder.localeCompare_trans; eassumption|].
    intros E. rewrite <- E in Hbc.
    pose proof (StringOrder.localeCompare_antisym a.1.1 b.1.1) as Ha.
    assert (H0 : Js.localeCompare a.1.1 b.1.1 = 0) by lia.
    apply Nab, StringOrder.localeCompare_0, H0.
  - left. rewrite <- Ebc. split; assumption.
  - left. rewrite Eab. split; assumption.
  - right. split; [congruence|].
    eapply StringOrder.localeCompare_trans; eassumption.
Qed.

Lemma compareClaims_compareValues (a b : Claim) :
  compareClaims a b = compareValues (value_of_claim a) (value_of_claim b).
Proof. reflexivity. Qed.

(** Where the two orders agree: on rows whose recipients do not differ in
    letter case only. *)
Lemma code_le_lower_pair_le (a b : Value) :
  (Js.toLowerCase a.1.1 = Js.toLowerCase b.1.1 -> a.1.1 = b.1.1) ->
  code_le a b -> lower_pair_le a b.
Proof.
  intros Hcase. unfold code_le, lower_pair_le, lower_pair_leb.
  rewrite compareValues_le, !StringOrder.localeCompare_le.
  intros [[[Hlt|[Elow _]] Hne]|[Er [Hlt|[Elow _]]]].
  - rewrite Hlt. reflexivity.
  - exfalso. apply Hne, Hcase, Elow.
  - rewrite Er, StringOrder.compare_refl, Hlt. reflexivity.
  - rewrite Er, Elow, !StringOrder.compare_refl. reflexivity.
Qed.

(** ** The shape of a generated blob *)

Lemma await_Ok {A : Type} (e : error) (o : option A) (a : A) :
  await e o = Ok a <-> o = Some a.
Proof. destruct o; simpl; split; congruence. Qed.

Lemma map_value_imap (F : nat -> Value -> IndexedValue) (vs : list Value) :
  (forall i v, value (F i v) = v) -> map value (imap F vs) = vs.
Proof.
  revert F. induction vs as [|v vs IH]; intros F HF; simpl; [reflexivity|].
  rewrite HF. f_equal. apply IH. intros i v'. apply HF.
Qed.

Section Shape.

Variable lib : MerkleLib.
Variable options : DistributorOptions.
Variable w : World.

Lemma StandardMerkleTree_of_values (vs : list Value) (t : StandardMerkleTree) :
  StandardMerkleTree_of lib vs = Ok t -> map value (dump_values t) = vs.
Proof.
  unfold StandardMerkleTree_of.
  destruct (merkle_of lib vs) as [[[r nodes] index]|]; [|discriminate].
  intros [= <-]. simpl. apply map_value_imap. reflexivity.
Qed.

Lemma generateMerkleTree_values (claims : list Claim) (t : StandardMerkleTree) :
  Distributor.generateMerkleTree lib claims = Ok t ->
  claims <> [] /\ map value (dump_values t) = map value_of_claim claims.
Proof.
  destruct claims as [|c claims]; [discriminate|].
  intros H. split; [discriminate|].
  apply StandardMerkleTree_of_values. exact H.
Qed.

(** What [distribute] returns, step by step. *)
Lemma distribute_Ok previousInfo previousDistribution (g : Generated) :
  Distributor.distribute lib options w previousInfo previousDistribution = Ok g ->
  exists lastProcessedBlock currentBlock newUsers totalSupply previousClaims tokens st,
    distributor_lastProcessedBlock w = Some lastProcessedBlock /\
    provider_getBlockNumber w = Some currentBlock /\
    Distributor.getWrapperUsers options w lastProcessedBlock currentBlock = Ok newUsers /\
    wrapper_totalSupply w = Some totalSupply /\
    Distributor.buildPreviousClaims previousDistribution = Ok previousClaims /\
    distributor_getTokens w = Some tokens /\
    for_of (Distributor.processToken options w previousDistribution
              (Distributor.allUsers previousDistribution newUsers)
              totalSupply previousClaims)
           tokens ([], ∅) = Ok st /\
    st.1 <> [] /\
    rows (distribution g) = map value_of_claim (Js.sort compareClaims st.1) /\
    totalDistributed (distribution g) = st.2 /\
    blockNumber (distribution g) = currentBlock /\
    prevTreeCid (distribution g)
      = match previousInfo with Some (cid, _) => cid | None => "" end /\
    is_Some (provider_getBlock w currentBlock) /\
    ipfs_upload w (distribution g) = Some (cid g).
Proof.
  unfold Distributor.distribute. intros H.
  apply bind_Ok in H as (lpb & Hlpb & H). apply await_Ok in Hlpb.
  apply bind_Ok in H as (cur & Hcur & H). apply await_Ok in Hcur.
  apply bind_Ok in H as (blk & Hblk & H). apply await_Ok in Hblk.
  apply bind_Ok in H as (newUsers & Hnew & H).
  apply bind_Ok in H as (S & HS & H). apply await_Ok in HS.
  apply bind_Ok in H as (pc & Hpc & H).
  apply bind_Ok in H as (tokens & Htok & H). apply await_Ok in Htok.
  apply bind_Ok in H as (st & Hst & H).
  apply bind_Ok in H as (mt & Hmt & H).
  apply bind_Ok in H as (c & Hc & H). apply await_Ok in Hc.
  injection H as <-.
  apply generateMerkleTree_values in Hmt as [Hne Hvals].
  exists lpb, cur, newUsers, S, pc, tokens, st. simpl.
  repeat (split; [assumption|]).
  split.
  - intros E. apply Hne. destruct st as [allClaims totals].
    simpl in E. subst allClaims. reflexivity.
  - split; [exact Hvals|]. repeat split; [eexists; exact Hblk | exact Hc].
Qed.

Lemma generateDistribution_Ok (g : Generated) :
  Distributor.generateDistribution lib options w = Ok g ->
  exists previousDistribution,
    Distributor.loadPreviousDistribution lib w
      (Distributor.getPreviousDistributionInfo w) = Ok previousDistribution /\
    Distributor.distribute lib options w
      (Distributor.getPreviousDistributionInfo w) previousDistribution = Ok g.
Proof.
  unfold Distributor.generateDistribution. cbv zeta. intros H.
  apply bind_Ok in H. exact H.
Qed.

(** C4, as the code has it. The rows of a generated blob are sorted by
    the comparator of the code: [localeCompare] on the recipients, then on
    the tokens, on the strings as they are.  Whenever no two rows have
    recipients that differ in letter case only, this is the order of the
    pairs of lowercase addresses. *)
Theorem generateDistribution_sorted (g : Generated) :
  Distributor.generateDistribution lib options w = Ok g ->
  StronglySorted code_le (rows (distribution g)) /\
  ((forall a b, a ∈ rows (distribution g) -> b ∈ rows (distribution g) ->
      Js.toLowerCase a.1.1 = Js.toLowerCase b.1.1 -> a.1.1 = b.1.1) ->
   StronglySorted lower_pair_le (rows (distribution g))).
Proof.
  intros H. apply generateDistribution_Ok in H as (prev & _ & H).
  apply distribute_Ok in H
    as (_ & _ & _ & _ & _ & _ & st & _ & _ & _ & _ & _ & _ & _ & _ & Hrows & _).
  assert (Hsorted : StronglySorted code_le (rows (distribution g))).
  { rewrite Hrows.
    apply (StronglySorted_fmap value_of_claim (fun a b => compareClaims a b <= 0) code_le).
    - intros a b Hab. unfold code_le. rewrite <- compareClaims_compareValues.
      exact Hab.
    - apply sort_StronglySorted.
      + intros a b. rewrite !compareClaims_compareValues.
        apply compareValues_total.
      + intros a b c. rewrite !compareClaims_compareValues.
        apply compareValues_trans. }
  split; [exact Hsorted|].
  intros Hcase. eapply StronglySorted_weaken; [|exact Hsorted].
  intros a b Ha Hb. apply code_le_lower_pair_le. apply Hcase; assumption.
Qed.

End Shape.

(** Case analysis on the members of a list that is written out. *)
Ltac each_member H :=
  repeat (apply elem_of_cons in H as [->|H]);
  [ .. | apply elem_of_nil in H; destruct H ].

Lemma generateDistribution_sorted_witness :
  StronglySorted lower_pair_le Scenario.round1_values.
Proof.
  destruct (generateDistribution_sorted Scenario.text_lib
              (Scenario.options_fee 0) Scenario.round1
              {| distribution := Scenario.round1_blob;
                 merkleRoot := Scenario.root_of Scenario.round1_values;
                 cid := "bafy-round-1" |}) as [_ H].
  - vm_compute. reflexivity.
  - apply H. intros a b Ha Hb.
    change (a ∈ Scenario.round1_values) in Ha.
    change (b ∈ Scenario.round1_values) in Hb.
    unfold Scenario.round1_values in Ha, Hb.
    each_member Ha; each_member Hb; simpl; intros E;
      first [ reflexivity | vm_compute in E; discriminate E ].
Defined.

(** C4, as the specification has it, fails: when the previous blob spells
    an address in lowercase and a Deposit event spells the same address with
    its checksum, the rows of the two spellings are kept apart, and the
    tokens are not in order across them. *)
Lemma generateDistribution_not_sorted_on_lowercase :
  exists g,
    Distributor.generateDistribution Scenario.text_lib (Scenario.options_fee 0)
      Scenario.mixed_case = Ok g /\
    rows (distribution g)
    = [ (Scenario.user3_lower, Scenario.tokenA, Dec 110);
        (Scenario.user3_lower, Scenario.tokenB, Dec 120);
        (Scenario.user3, Scenario.tokenA, Dec 100);
        (Scenario.user3, Scenario.tokenB, Dec 100) ] /\
    ~ Sorted lower_pair_le (rows (distribution g)).
Proof.
  eexists. split; [vm_compute; reflexivity|].
  split; [vm_compute; reflexivity|].
  intros H.
  apply Sorted_inv in H as [H _].
  apply Sorted_inv in H as [_ H].
  apply HdRel_inv in H.
  vm_compute in H. discriminate H.
Qed.

(** ** Cumulative amounts across rounds *)

(** C1, on the chain of round 2. The blob of round 1 has four rows; the
    blob generated on top of it keeps one of them: the rows of token B,
    which had nothing to distribute, and the rows of user 2, who holds no
    shares any more, are not carried forward. *)
Theorem generateDistribution_drops_rows :
  rows Scenario.round1_blob
  = [ (Scenario.user1, Scenario.tokenA, Dec 250000000000000000);
      (Scenario.user1, Scenario.tokenB, Dec 500);
      (Scenario.user2, Scenario.tokenA, Dec 750000000000000000);
      (Scenario.user2, Scenario.tokenB, Dec 1500) ] /\
  exists g,
    Distributor.generateDistribution Scenario.text_lib (Scenario.options_fee 0)
      Scenario.round2 = Ok g /\
    prevTreeCid (distribution g) = "bafy-round-1" /\
    rows (distribution g)
    = [ (Scenario.user1, Scenario.tokenA, Dec 250000000000000100) ].
Proof.
  split; [reflexivity|].
  eexists. split; [vm_compute; reflexivity|].
  split; vm_compute; reflexivity.
Qed.

(** C5, on the chain of round 2. The total of a token is the total of the
    previous blob plus the new allocations, while the rows that received
    nothing are gone: the totals of the generated blob exceed the sums of
    its rows. *)
Theorem generateDistribution_total_exceeds_rows :
  exists g,
    Distributor.generateDistribution Scenario.text_lib (Scenario.options_fee 0)
      Scenario.round2 = Ok g /\
    totalDistributed (distribution g) !! Scenario.tokenA
      = Some (Dec 1000000000000000100) /\
    tokenSum Scenario.tokenA (rows (distribution g)) = 250000000000000100 /\
    totalDistributed (distribution g) !! Scenario.tokenB = Some (Dec 2000) /\
    tokenSum Scenario.tokenB (rows (distribution g)) = 0.
Proof.
  eexists. split; [vm_compute; reflexivity|].
  repeat split; vm_compute; reflexivity.
Qed.

(** ** Validation of the previous blob

    Only the validation step raises [ValidationFailed]. *)

Lemma other_Ok {A : Type} (a : A) : other_failure (Ok a).
Proof. discriminate. Qed.

Lemma other_await {A : Type} (e : error) (o : option A) :
  e <> ValidationFailed -> other_failure (await e o).
Proof. intros He. destruct o; simpl; [discriminate | congruence]. Qed.

Lemma other_bind {A B : Type} (c : result A) (k : A -> result B) :
  other_failure c -> (forall a, other_failure (k a)) -> other_failure (bind c k).
Proof.
  intros Hc Hk. destruct c as [a|e]; simpl; [apply Hk|].
  intros [= ->]. apply Hc. reflexivity.
Qed.

Lemma other_for_of {S A : Type} (body : S -> A -> result S) (xs : list A) (st : S) :
  (forall s x, other_failure (body s x)) -> other_failure (for_of body xs st).
Proof.
  intros Hbody. revert st. induction xs as [|x xs IH]; intros st; simpl.
  - apply other_Ok.
  - apply other_bind; [apply Hbody | exact IH].
Qed.

Lemma other_BigInt (s : numstr) : other_failure (BigInt s).
Proof. destruct s; discriminate. Qed.

Lemma other_BigInt_floor (x : float) : other_failure (Js.BigInt_floor x).
Proof. unfold Js.BigInt_floor. destruct (Prim2SF x); discriminate. Qed.

Lemma other_bigint_div (a b : Z) : other_failure (Js.bigint_div a b).
Proof. unfold Js.bigint_div. destruct (b =? 0); discriminate. Qed.

Ltac other_step :=
  first
    [ apply other_Ok
    | apply other_await; discriminate
    | apply other_BigInt
    | apply other_BigInt_floor
    | apply other_bigint_div
    | apply other_bind; [|intros ?]
    | apply other_for_of; intros ? ? ].

Section Validation.

Variable lib : MerkleLib.
Variable options : DistributorOptions.
Variable w : World.

Lemma other_calculateDistributableAmount tokenAddr previousDistribution :
  other_failure
    (Distributor.calculateDistributableAmount options w tokenAddr previousDistribution).
Proof.
  unfold Distributor.calculateDistributableAmount,
    Distributor.getDistributorTokenBalance,
    Distributor.getClaimedAmountSinceLastReport,
    Distributor.getDistributorBalanceAtBlock.
  apply other_bind.
  - apply other_bind; [other_step|].
    intros [b|]; discriminate.
  - intros currentBalance. destruct previousDistribution; repeat other_step.
Qed.

Lemma other_processUser S actual pc T st user :
  other_failure (Distributor.processUser w S actual pc T st user).
Proof.
  unfold Distributor.processUser. destruct st as [allClaims total].
  apply other_bind; [other_step|]. intros effectiveBalance.
  destruct (effectiveBalance <=? 0); [other_step|].
  apply other_bind; [other_step|]. intros userShare.
  destruct (_ >? 0); other_step.
Qed.

Lemma other_processToken prev users S pc st T :
  other_failure (Distributor.processToken options w prev users S pc st T).
Proof.
  unfold Distributor.processToken. destruct st as [allClaims totals].
  apply other_bind; [destruct prev; other_step|]. intros tokenTotalAmount.
  apply other_bind; [apply other_calculateDistributableAmount|].
  intros distributableAmount.
  destruct (distributableAmount <=? 0); [other_step|].
  apply other_bind; [other_step|]. intros feeBps.
  apply other_bind; [|intros st'; other_step].
  apply other_for_of. intros s x. apply other_processUser.
Qed.

Lemma other_generateMerkleTree claims :
  other_failure (Distributor.generateMerkleTree lib claims).
Proof.
  unfold Distributor.generateMerkleTree, StandardMerkleTree_of.
  destruct claims; [discriminate|].
  destruct (merkle_of lib _) as [[[r nodes] index]|]; discriminate.
Qed.

Lemma other_distribute previousInfo previousDistribution :
  other_failure (Distributor.distribute lib options w previousInfo previousDistribution).
Proof.
  unfold Distributor.distribute, Distributor.getWrapperUsers,
    Distributor.buildPreviousClaims, Distributor.uploadToIPFS.
  apply other_bind; [other_step|]. intros lastProcessedBlock.
  apply other_bind; [other_step|]. intros currentBlock.
  apply other_bind; [other_step|]. intros currentBlockData.
  apply other_bind; [repeat other_step|]. intros newUsers.
  apply other_bind; [other_step|]. intros totalSupply.
  apply other_bind.
  { destruct previousDistribution; [|other_step].
    apply other_for_of. intros s x. unfold Distributor.previousClaims_add.
    destruct (value x) as [[r t] n]. repeat other_step. }
  intros previousClaims.
  apply other_bind; [other_step|]. intros tokens.
  apply other_bind; [apply other_for_of; intros s x; apply other_processToken|].
  intros st.
  apply other_bind; [apply other_generateMerkleTree|]. intros merkleTree.
  repeat other_step.
Qed.

(** The rebuilt root, as [validatePreviousDistribution] computes it. *)
Lemma map_result_claim_of_value (vs : list IndexedValue) :
  match map_result claim_of_value vs with
  | Ok claims =>
      all_numbers (map value vs) = true /\
      map value_of_claim claims = map value vs
  | Err _ => all_numbers (map value vs) = false
  end.
Proof.
  induction vs as [|v vs IH]; simpl; [split; reflexivity|].
  unfold claim_of_value at 1.
  destruct (value v) as [[r t] [z|]]; simpl; [|reflexivity].
  destruct (map_result claim_of_value vs) as [claims|e]; simpl.
  - destruct IH as [IH1 IH2]. split; [exact IH1|].
    unfold value_of_claim at 1. simpl. rewrite IH2. reflexivity.
  - exact IH.
Qed.

Lemma validatePreviousDistribution_rebuilt (d : Distribution) (expected : string) :
  Distributor.validatePreviousDistribution lib d expected = true <->
  rebuiltRoot lib d = Some expected.
Proof.
  unfold Distributor.validatePreviousDistribution, rebuiltRoot, rows.
  pose proof (map_result_claim_of_value (values d)) as H.
  destruct (map_result claim_of_value (values d)) as [claims|e]; simpl.
  - destruct H as [Hnum Hvals].
    unfold Distributor.generateMerkleTree.
    destruct claims as [|c claims].
    + simpl in Hvals. rewrite <- Hvals. simpl. split; discriminate.
    + rewrite Hvals. remember (map value (values d)) as vs eqn:Evs.
      destruct vs as [|v vs]; [discriminate Hvals|].
      simpl in Hnum. rewrite Hnum. unfold StandardMerkleTree_of.
      destruct (merkle_of lib (v :: vs)) as [[[r nodes] index]|]; simpl.
      * rewrite String.eqb_eq. split; congruence.
      * split; discriminate.
  - destruct (map value (values d)) as [|v vs]; [discriminate H|].
    simpl in H. rewrite H. split; discriminate.
Qed.

(** C6, as the code has it. When the contract reports a cid that is not
    empty and a root that is not the zero hash, the previous blob is
    downloaded (the round fails when it cannot be), its root is rebuilt
    from its values, and the round fails with the validation error exactly
    when there is no rebuilt root equal to the root of the contract;
    otherwise the round goes on from the downloaded blob.  When the cid is
    empty or the root is the zero hash, nothing is downloaded or compared:
    the round runs without a previous distribution. *)
Theorem generateDistribution_validates (cid merkleRoot : string) :
  distributor_cid w = Some cid ->
  distributor_root w = Some merkleRoot ->
  if (cid =? "")%string || (merkleRoot =? ZeroHash)%string then
    Distributor.generateDistribution lib options w
    = Distributor.distribute lib options w None None
  else
    match ipfs_download w cid with
    | None => Distributor.generateDistribution lib options w = Err IpfsFailure
    | Some prev =>
        (Distributor.generateDistribution lib options w = Err ValidationFailed <->
         rebuiltRoot lib prev <> Some merkleRoot) /\
        (rebuiltRoot lib prev = Some merkleRoot ->
         Distributor.generateDistribution lib options w
         = Distributor.distribute lib options w (Some (cid, merkleRoot)) (Some prev))
    end.
Proof.
  intros Hcid Hroot.
  unfold Distributor.generateDistribution, Distributor.getPreviousDistributionInfo.
  rewrite Hcid, Hroot. simpl.
  destruct ((cid =? "")%string || (merkleRoot =? ZeroHash)%string); [reflexivity|].
  cbv zeta. unfold Distributor.loadPreviousDistribution.
  destruct (ipfs_download w cid) as [prev|]; simpl; [|reflexivity].
  pose proof (validatePreviousDistribution_rebuilt prev merkleRoot) as Hv.
  destruct (Distributor.validatePreviousDistribution lib prev merkleRoot); simpl.
  - split.
    + split.
      * intros H. exfalso. exact (other_distribute _ _ H).
      * intros H. exfalso. apply H, Hv. reflexivity.
    + reflexivity.
  - split.
    + split; [|reflexivity].
      intros _ H. apply Hv in H. discriminate H.
    + intros H. apply Hv in H. discriminate H.
Qed.

End Validation.

(** ** Recipient set builder *)

Lemma Set_add_all_snoc (s xs : list string) (x : string) :
  Js.Set_add_all s (xs ++ [x]) = Js.Set_add (Js.Set_add_all s xs) x.
Proof. unfold Js.Set_add_all. rewrite fold_left_app. reflexivity. Qed.

Lemma Set_add_all_app (s xs ys : list string) :
  Js.Set_add_all s (xs ++ ys) = Js.Set_add_all (Js.Set_add_all s xs) ys.
Proof. unfold Js.Set_add_all. apply fold_left_app. Qed.

Lemma Set_add_all_first_occurrences (l : list string) :
  Js.Set_add_all [] l = first_occurrences l.
Proof.
  induction l as [|x l IH] using rev_ind; [reflexivity|].
  rewrite Set_add_all_snoc, IH. unfold first_occurrences, Js.Set_add.
  rewrite reverse_snoc. simpl.
  destruct (decide_rel elem_of x (reverse l)) as [Hin|Hnin].
  - rewrite bool_decide_eq_true_2; [reflexivity|].
    rewrite elem_of_reverse, elem_of_remove_dups. exact Hin.
  - rewrite bool_decide_eq_false_2.
    + rewrite reverse_cons. reflexivity.
    + rewrite elem_of_reverse, elem_of_remove_dups. exact Hnin.
Qed.

Lemma first_occurrences_NoDup (l : list string) : NoDup (first_occurrences l).
Proof.
  unfold first_occurrences. rewrite reverse_Permutation.
  apply NoDup_remove_dups.
Qed.

Lemma elem_of_first_occurrences (l : list string) (x : string) :
  x ∈ first_occurrences l <-> x ∈ l.
Proof.
  unfold first_occurrences.
  rewrite elem_of_reverse, elem_of_remove_dups, elem_of_reverse. reflexivity.
Qed.

Lemma filter_Set_add_all (P : string -> Prop) `{forall x, Decision (P x)}
    (s l : list string) :
  filter P (Js.Set_add_all s l) = Js.Set_add_all (filter P s) (filter P l).
Proof.
  revert s. induction l as [|x l IH]; intros s; [reflexivity|].
  change (Js.Set_add_all s (x :: l)) with (Js.Set_add_all (Js.Set_add s x) l).
  rewrite IH. unfold Js.Set_add.
  destruct (decide (P x)) as [HP|HP].
  - rewrite (filter_cons_True P x l HP).
    change (Js.Set_add_all (filter P s) (x :: filter P l))
      with (Js.Set_add_all (Js.Set_add (filter P s) x) (filter P l)).
    unfold Js.Set_add. f_equal.
    destruct (decide (x ∈ s)) as [Hin|Hnin].
    + rewrite !bool_decide_eq_true_2; [reflexivity | | exact Hin].
      apply list_elem_of_filter. split; assumption.
    + rewrite !bool_decide_eq_false_2; [| | exact Hnin].
      * rewrite filter_app, (filter_cons_True P x [] HP). reflexivity.
      * rewrite list_elem_of_filter. intros [_ Hin]. contradiction.
  - rewrite (filter_cons_False P x l HP). f_equal.
    destruct (bool_decide (x ∈ s)); [reflexivity|].
    rewrite filter_app, (filter_cons_False P x [] HP). apply app_nil_r.
Qed.

Lemma elem_of_Set_add (s : list string) (x u : string) :
  u ∈ Js.Set_add s x <-> u ∈ s \/ u = x.
Proof.
  unfold Js.Set_add. destruct (bool_decide (x ∈ s)) eqn:Hb.
  - apply bool_decide_eq_true_1 in Hb. split; [auto|].
    intros [H| ->]; assumption.
  - rewrite elem_of_app, list_elem_of_singleton. reflexivity.
Qed.

Lemma elem_of_Set_add_all (s l : list string) (u : string) :
  u ∈ Js.Set_add_all s l <-> u ∈ s \/ u ∈ l.
Proof.
  revert s. induction l as [|x l IH]; intros s.
  - simpl. split; [auto|]. intros [H|H]; [exact H | inversion H].
  - change (Js.Set_add_all s (x :: l)) with (Js.Set_add_all (Js.Set_add s x) l).
    rewrite IH, elem_of_Set_add, elem_of_cons. tauto.
Qed.

Lemma Set_add_member (s : list string) (x : string) :
  x ∈ s -> Js.Set_add s x = s.
Proof. intros H. unfold Js.Set_add. rewrite bool_decide_eq_true_2; auto. Qed.

Lemma Set_add_fresh (s : list string) (x : string) :
  x ∉ s -> Js.Set_add s x = s ++ [x].
Proof. intros H. unfold Js.Set_add. rewrite bool_decide_eq_false_2; auto. Qed.

Lemma Set_add_all_Set (s l : list string) :
  Js.Set_add_all s (Js.Set_add_all [] l) = Js.Set_add_all s l.
Proof.
  induction l as [|x l IH] using rev_ind; [reflexivity|].
  rewrite !Set_add_all_snoc.
  destruct (decide (x ∈ l)) as [Hin|Hnin].
  - rewrite (Set_add_member (Js.Set_add_all [] l) x), IH.
    + symmetry. apply Set_add_member, elem_of_Set_add_all. right. exact Hin.
    + apply elem_of_Set_add_all. right. exact Hin.
  - rewrite (Set_add_fresh (Js.Set_add_all [] l) x).
    + rewrite Set_add_all_snoc, IH. reflexivity.
    + rewrite elem_of_Set_add_all. intros [H|H]; [inversion H | contradiction].
Qed.

Lemma deposit_loop (logs : list Log) (acc : list string) :
  fold_left
    (fun addresses log =>
       match parseLog_Deposit log with
       | Ok (Some (_, owner, _, _)) => Js.Set_add addresses owner
       | Ok None => addresses
       | Err _ => addresses
       end)
    logs acc
  = Js.Set_add_all acc (depositOwners logs).
Proof.
  revert acc. induction logs as [|l logs IH]; intros acc; [reflexivity|].
  simpl. rewrite IH. destruct l; reflexivity.
Qed.

Section Recipients.

Variable options : DistributorOptions.
Variable w : World.

Lemma getWrapperUsers_owners (fromBlock toBlock : Z) (logs : list Log) :
  provider_getLogs w (Distributor.depositFilter options fromBlock toBlock) = Some logs ->
  Distributor.getWrapperUsers options w fromBlock toBlock
  = Ok (first_occurrences (filter (fun a => a <> ZeroAddress) (depositOwners logs))).
Proof.
  intros H. unfold Distributor.getWrapperUsers. rewrite H. simpl.
  rewrite deposit_loop, filter_Set_add_all, Set_add_all_first_occurrences.
  reflexivity.
Qed.

(** C8, as the code has it. The candidates are the recipients of the
    previous blob followed by the owners of the Deposit events scanned
    from [lastProcessedBlock] to the current block, each once, at its
    first place: the list is in the order of insertion, not in the order
    of the addresses, and the zero address is dropped among the owners of
    the events only. *)
Theorem candidate_list (previousDistribution : option Distribution)
    (lastProcessedBlock currentBlock : Z) (logs : list Log) :
  let f := Distributor.depositFilter options lastProcessedBlock currentBlock in
  provider_getLogs w f = Some logs ->
  fromBlock f = lastProcessedBlock /\ toBlock f = AtBlock currentBlock /\
  address f = wrapperAddr options /\
  exists newUsers,
    Distributor.getWrapperUsers options w lastProcessedBlock currentBlock = Ok newUsers /\
    let users := Distributor.allUsers previousDistribution newUsers in
    users = first_occurrences
              (previousRecipients previousDistribution ++
               filter (fun a => a <> ZeroAddress) (depositOwners logs)) /\
    NoDup users /\
    forall u, u ∈ users <->
              u ∈ previousRecipients previousDistribution \/
              (u ∈ depositOwners logs /\ u <> ZeroAddress).
Proof.
  cbv zeta. intros Hlogs. repeat split.
  eexists. split; [apply getWrapperUsers_owners; exact Hlogs|].
  assert (Husers :
    Distributor.allUsers previousDistribution
      (first_occurrences (filter (fun a => a <> ZeroAddress) (depositOwners logs)))
    = first_occurrences
        (previousRecipients previousDistribution ++
         filter (fun a => a <> ZeroAddress) (depositOwners logs))).
  { unfold Distributor.allUsers, previousRecipients.
    rewrite <- !Set_add_all_first_occurrences.
    destruct previousDistribution as [prev|]; simpl.
    - rewrite Set_add_all_Set, <- Set_add_all_app. reflexivity.
    - apply Set_add_all_Set. }
  cbv zeta. rewrite Husers. split; [reflexivity|].
  split; [apply first_occurrences_NoDup|].
  intros u. rewrite elem_of_first_occurrences, elem_of_app, list_elem_of_filter.
  tauto.
Qed.

End Recipients.

Lemma candidate_list_witness :
  exists newUsers,
    Distributor.getWrapperUsers (Scenario.options_fee 0) Scenario.after_foreign 17 40
      = Ok newUsers /\
    NoDup (Distributor.allUsers (Some Scenario.foreign_blob) newUsers).
Proof.
  destruct (candidate_list (Scenario.options_fee 0) Scenario.after_foreign
              (Some Scenario.foreign_blob) 17 40
              [ DepositLog Scenario.user1 Scenario.user1 1 1;
                DepositLog Scenario.user1 ZeroAddress 1 1;
                DepositLog Scenario.user2 Scenario.user2 1 1 ])
    as (_ & _ & _ & newUsers & Hnew & _ & Hnodup & _).
  - vm_compute. reflexivity.
  - exists newUsers. split; assumption.
Defined.

(** C8, as the specification has it, fails: after a blob whose recipients
    are user 2 and the zero address, and Deposit events of user 1, of the
    zero address and of user 2, the candidates are user 2, the zero address
    and user 1, in this order. *)
Lemma candidate_list_unordered_with_zero_address :
  exists newUsers,
    Distributor.getWrapperUsers (Scenario.options_fee 0) Scenario.after_foreign 17 40
      = Ok newUsers /\
    let users := Distributor.allUsers (Some Scenario.foreign_blob) newUsers in
    users = [ Scenario.user2; ZeroAddress; Scenario.user1 ] /\
    ~ Sorted address_le users /\
    ZeroAddress ∈ users.
Proof.
  eexists. split; [vm_compute; reflexivity|].
  cbv zeta.
  assert (E : Distributor.allUsers (Some Scenario.foreign_blob)
                [Scenario.user1; Scenario.user2]
              = [ Scenario.user2; ZeroAddress; Scenario.user1 ])
    by (vm_compute; reflexivity).
  change (Distributor.allUsers (Some Scenario.foreign_blob) _)
    with (Distributor.allUsers (Some Scenario.foreign_blob)
            [Scenario.user1; Scenario.user2]).
  rewrite E. split; [reflexivity|]. split.
  - intros H. apply Sorted_inv in H as [_ H]. apply HdRel_inv in H.
    apply H. vm_compute. reflexivity.
  - right. left.
Qed.

Lemma generateDistribution_validates_witness :
  Distributor.generateDistribution Scenario.text_lib (Scenario.options_fee 0)
    Scenario.round2
  = Distributor.distribute Scenario.text_lib (Scenario.options_fee 0) Scenario.round2
      (Some ("bafy-round-1", Scenario.root_of Scenario.round1_values))
      (Some Scenario.round1_blob).
Proof.
  pose proof (generateDistribution_validates Scenario.text_lib
                (Scenario.options_fee 0) Scenario.round2
                "bafy-round-1" (Scenario.root_of Scenario.round1_values)
                eq_refl eq_refl) as H.
  change (ipfs_download Scenario.round2 "bafy-round-1")
    with (Some Scenario.round1_blob) in H.
  replace (("bafy-round-1" =? "")%string
           || (Scenario.root_of Scenario.round1_values =? ZeroHash)%string)
    with false in H by (vm_compute; reflexivity).
  apply H. vm_compute. reflexivity.
Defined.

(** C6, as the specification has it, fails: the contract reports the cid of
    round 1 and the zero hash as its root; the blob behind the cid can be
    downloaded and its rebuilt root is not the root of the contract, yet
    the round does not fail: it runs as a genesis round. *)
Lemma generateDistribution_zero_root_not_validated :
  distributor_cid Scenario.zero_root = Some "bafy-round-1" /\
  ipfs_download Scenario.zero_root "bafy-round-1" = Some Scenario.round1_blob /\
  rebuiltRoot Scenario.text_lib Scenario.round1_blob
    <> distributor_root Scenario.zero_root /\
  exists g,
    Distributor.generateDistribution Scenario.text_lib (Scenario.options_fee 0)
      Scenario.zero_root = Ok g /\
    prevTreeCid (distribution g) = "" /\
    rows (distribution g)
    = [ (Scenario.user1, Scenario.tokenA, Dec 1000000000000000100);
        (Scenario.user1, Scenario.tokenB, Dec 2000) ].
Proof.
  split; [reflexivity|]. split; [reflexivity|]. split.
  - intros E. vm_compute in E. discriminate E.
  - eexists. split; [vm_compute; reflexivity|].
    split; vm_compute; reflexivity.
Qed.

(** ** Proof generation *)

Lemma findIndex_from_found {A : Type} (p : A -> bool) (l : list A) (i : Z) :
  0 <= i ->
  (ProofGenerator.findIndex_from p l i = -1 /\ forall x, x ∈ l -> p x = false) \/
  (exists (k : nat) (x : A),
      ProofGenerator.findIndex_from p l i = i + Z.of_nat k /\
      l !! k = Some x /\ p x = true).
Proof.
  revert i. induction l as [|y l IH]; intros i Hi; simpl.
  - left. split; [reflexivity|]. intros x Hx. inversion Hx.
  - destruct (p y) eqn:Hy.
    + right. exists 0%nat, y. split; [lia|]. split; [reflexivity | exact Hy].
    + destruct (IH (i + 1)) as [[Hnone Hall]|(k & x & Hk & Hx & Hp)]; [lia| |].
      * left. split; [exact Hnone|].
        intros x Hx. apply elem_of_cons in Hx as [->|Hx]; auto.
      * right. exists (S k), x. split; [lia|]. split; assumption.
Qed.

Section ProofLookup.

Variable lib : MerkleLib.
Variable d : Distribution.

(** The blob is one the library accepts: it loads, and every leaf in
    range has a proof. *)
Hypothesis loads : merkle_load lib d = true.
Hypothesis proves :
  forall i, 0 <= i < Z.of_nat (length (values d)) ->
            is_Some (merkle_getProof lib d i).

(** C9. Proof generation by index returns [null] exactly when the index
    is negative or not below the number of values; proof generation by
    recipient returns [null] exactly when no row names the recipient, up
    to letter case; otherwise each returns a proof and the leaf it
    matched. *)
Theorem proof_lookup :
  (forall index,
      ProofGenerator.generateProofByIndex lib d index = Ok None <->
      index < 0 \/ Z.of_nat (length (values d)) <= index) /\
  (forall recipient,
      ProofGenerator.generateProofForRecipient lib d recipient = Ok None <->
      ~ exists v, v ∈ values d /\ names recipient v) /\
  (forall index,
      0 <= index < Z.of_nat (length (values d)) ->
      exists proof v,
        values d !! Z.to_nat index = Some v /\
        merkle_getProof lib d index = Some proof /\
        ProofGenerator.generateProofByIndex lib d index
        = Ok (Some {| ProofGenerator.pr_proof := proof;
                      ProofGenerator.pr_value := Some (value v);
                      ProofGenerator.pr_treeIndex := treeIndex v |})) /\
  (forall recipient,
      (exists v, v ∈ values d /\ names recipient v) ->
      exists proof (k : nat) v,
        values d !! k = Some v /\ names recipient v /\
        merkle_getProof lib d (Z.of_nat k) = Some proof /\
        ProofGenerator.generateProofForRecipient lib d recipient
        = Ok (Some {| ProofGenerator.pr_proof := proof;
                      ProofGenerator.pr_value := Some (value v);
                      ProofGenerator.pr_treeIndex := Z.of_nat k |})).
Proof.
  assert (Hin : forall index, 0 <= index < Z.of_nat (length (values d)) ->
            exists proof v,
              values d !! Z.to_nat index = Some v /\
              merkle_getProof lib d index = Some proof /\
              ProofGenerator.generateProofByIndex lib d index
              = Ok (Some {| ProofGenerator.pr_proof := proof;
                            ProofGenerator.pr_value := Some (value v);
                            ProofGenerator.pr_treeIndex := treeIndex v |})).
  { intros index Hrange.
    destruct (proves index Hrange) as [proof Hproof].
    destruct (lookup_lt_is_Some_2 (values d) (Z.to_nat index)) as [v Hv]; [lia|].
    exists proof, v. split; [exact Hv|]. split; [exact Hproof|].
    unfold ProofGenerator.generateProofByIndex, ProofGenerator.load.
    destruct (Z.ltb_spec index 0) as [|_]; [lia|].
    destruct (Z.geb_spec index (Z.of_nat (length (values d)))) as [|_]; [lia|].
    simpl. rewrite loads. simpl. rewrite Hproof. simpl. rewrite Hv. reflexivity. }
  assert (Hfind : forall recipient,
            (ProofGenerator.generateProofForRecipient lib d recipient = Ok None /\
             forall v, v ∈ values d -> ~ names recipient v) \/
            (exists proof (k : nat) v,
                values d !! k = Some v /\ names recipient v /\
                merkle_getProof lib d (Z.of_nat k) = Some proof /\
                ProofGenerator.generateProofForRecipient lib d recipient
                = Ok (Some {| ProofGenerator.pr_proof := proof;
                              ProofGenerator.pr_value := Some (value v);
                              ProofGenerator.pr_treeIndex := Z.of_nat k |}))).
  { intros recipient.
    unfold ProofGenerator.generateProofForRecipient, ProofGenerator.load,
      ProofGenerator.findIndex.
    rewrite loads. simpl.
    destruct (findIndex_from_found (ProofGenerator.same_recipient recipient)
                (values d) 0) as [[Hnone Hall]|(k & v & Hk & Hv & Hp)]; [lia| |].
    - left. rewrite Hnone. simpl. split; [reflexivity|].
      intros v Hv Hname. specialize (Hall v Hv).
      unfold ProofGenerator.same_recipient in Hall.
      apply String.eqb_neq in Hall. contradiction.
    - right. rewrite Z.add_0_l in Hk. rewrite Hk.
      destruct (Z.eqb_spec (Z.of_nat k) (-1)) as [|_]; [lia|].
      destruct (proves (Z.of_nat k)) as [proof Hproof].
      { apply lookup_lt_Some in Hv. lia. }
      exists proof, k, v. split; [exact Hv|]. split.
      + apply String.eqb_eq. exact Hp.
      + split; [exact Hproof|].
        rewrite Hproof. simpl. rewrite Nat2Z.id, Hv. reflexivity. }
  split; [|split; [|split]].
  - intros index. split.
    + intros H.
      destruct (Z_lt_dec index 0) as [|Hge]; [left; assumption|].
      destruct (Z_le_dec (Z.of_nat (length (values d))) index) as [|Hlt];
        [right; assumption|].
      destruct (Hin index) as (proof & v & _ & _ & E); [lia|].
      rewrite E in H. discriminate H.
    + intros Hout. unfold ProofGenerator.generateProofByIndex.
      destruct (Z.ltb_spec index 0); [reflexivity|].
      destruct (Z.geb_spec index (Z.of_nat (length (values d))));
        [reflexivity | lia].
  - intros recipient. destruct (Hfind recipient)
      as [[Hnull Hall]|(proof & k & v & Hv & Hname & _ & E)].
    + split; [|intros _; exact Hnull].
      intros _ (v & Hv & Hname). exact (Hall v Hv Hname).
    + split.
      * intros H. rewrite E in H. discriminate H.
      * intros H. exfalso. apply H. exists v. split; [|exact Hname].
        eapply list_elem_of_lookup_2. exact Hv.
  - exact Hin.
  - intros recipient (v & Hv & Hname).
    destruct (Hfind recipient) as [[_ Hall]|H]; [|exact H].
    exfalso. exact (Hall v Hv Hname).
Qed.

End ProofLookup.

(** C10. The outcome of [verifyProof] does not depend on the root it is
    given: the proof is checked against the tree of the single leaf
    [value], whose root the library computes from [value] alone. *)
Theorem verifyProof_ignores_root (lib : MerkleLib) (v : Value)
    (proof : list string) (r1 r2 : string) :
  ProofGenerator.verifyProof lib v proof r1
  = ProofGenerator.verifyProof lib v proof r2 /\
  ProofGenerator.verifyProof lib v proof r1
  = (let* t := StandardMerkleTree_of lib [v] in ProofGenerator.verify lib t v proof).
Proof. split; reflexivity. Qed.

Lemma proof_lookup_witness :
  ProofGenerator.generateProofByIndex Scenario.text_lib Scenario.round1_blob 7 = Ok None /\
  ProofGenerator.generateProofForRecipient Scenario.text_lib Scenario.round1_blob
    Scenario.user3 = Ok None.
Proof.
  destruct (proof_lookup Scenario.text_lib Scenario.round1_blob eq_refl
              (fun i _ => ex_intro _ [] eq_refl)) as (Hindex & Hrecipient & _).
  split.
  - apply Hindex. right. vm_compute. discriminate.
  - apply Hrecipient. intros (v & Hv & Hname).
    change (v ∈ imap (fun i x => {| treeIndex := Z.of_nat i; value := x |})
                  Scenario.round1_values) in Hv.
    unfold Scenario.round1_values in Hv. simpl in Hv.
    each_member Hv; vm_compute in Hname; discriminate Hname.
Defined.

(** ** Failures *)




Section Failures.

Variable lib : MerkleLib.
Variable options : DistributorOptions.
Variable w : World.





End Failures.



(** * Further properties of the engine *)

(** ** The map of the previous claims *)

Lemma previousClaims_add_lookup (m m' : gmap string (gmap string Z))
    (v : IndexedValue) (r t : string) :
  Distributor.previousClaims_add m v = Ok m' ->
  exists z,
    (value v).2 = Dec z /\
    default ∅ (m' !! r) !! t
    = if bool_decide ((value v).1.1 = r /\ (value v).1.2 = t) then Some z
      else default ∅ (m !! r) !! t.
Proof.
  unfold Distributor.previousClaims_add.
  destruct (value v) as [[r' t'] [z|]]; simpl; [|discriminate].
  intros [= <-]. exists z. split; [reflexivity|].
  destruct (decide (r' = r)) as [->|Hr].
  - rewrite lookup_insert_eq. simpl.
    destruct (decide (t' = t)) as [->|Ht].
    + rewrite lookup_insert_eq, bool_decide_eq_true_2; [reflexivity | split; reflexivity].
    + rewrite lookup_insert_ne by exact Ht.
      rewrite bool_decide_eq_false_2 by (intros [_ E]; contradiction).
      destruct (m !! r) as [inner|] eqn:Hm; simpl.
      * rewrite Hm. reflexivity.
      * rewrite lookup_insert_eq. reflexivity.
  - rewrite lookup_insert_ne by exact Hr.
    rewrite bool_decide_eq_false_2 by (intros [E _]; contradiction).
    destruct (m !! r') as [inner|] eqn:Hm; [reflexivity|].
    rewrite lookup_insert_ne by exact Hr. reflexivity.
Qed.

Lemma previousClaims_loop (vs : list IndexedValue) (m0 m : gmap string (gmap string Z))
    (r t : string) :
  for_of Distributor.previousClaims_add vs m0 = Ok m ->
  default ∅ (m !! r) !! t
  = match lastAmount (map value vs) r t with
    | Some z => Some z
    | None => default ∅ (m0 !! r) !! t
    end.
Proof.
  revert m0. induction vs as [|v vs IH]; intros m0 H; simpl in *.
  - injection H as <-. reflexivity.
  - apply bind_Ok in H as (m1 & Hadd & H).
    rewrite (IH _ H).
    destruct (previousClaims_add_lookup _ _ _ r t Hadd) as (z & Hz & Hlookup).
    destruct (value v) as [[r' t'] a]. simpl in Hz, Hlookup. subst a.
    destruct (lastAmount (map value vs) r t); [reflexivity|].
    rewrite Hlookup. destruct (bool_decide (r' = r /\ t' = t)); reflexivity.
Qed.

Lemma previousClaims_loop_Ok (vs : list IndexedValue) (m0 : gmap string (gmap string Z)) :
  all_numbers (map value vs) = true <->
  exists m, for_of Distributor.previousClaims_add vs m0 = Ok m.
Proof.
  revert m0. induction vs as [|v vs IH]; intros m0; simpl.
  - split; [eauto | reflexivity].
  - unfold Distributor.previousClaims_add at 1.
    destruct (value v) as [[r' t'] [z|]]; simpl.
    + apply IH.
    + split; [discriminate | intros [m H]; discriminate H].
Qed.

(** X1. The map of the previous claims is built exactly when every amount
    of the previous blob is a number, and it then holds, for every pair, the
    amount of the last row of that pair in the blob, and nothing for a pair
    without a row; without a previous blob it is empty. *)
Theorem buildPreviousClaims_lookup (prev : option Distribution) :
  (forall d, prev = Some d ->
     (all_numbers (rows d) = true <->
      exists pc, Distributor.buildPreviousClaims prev = Ok pc)) /\
  (forall pc, Distributor.buildPreviousClaims prev = Ok pc ->
     forall r t,
       default ∅ (pc !! r) !! t
       = match prev with
         | Some d => lastAmount (rows d) r t
         | None => None
         end).
Proof.
  split.
  - intros d ->. apply previousClaims_loop_Ok.
  - intros pc H r t. destruct prev as [d|]; simpl in H.
    + rewrite (previousClaims_loop _ _ _ r t H). unfold rows.
      destruct (lastAmount (map value (values d)) r t); [reflexivity|].
      rewrite lookup_empty. reflexivity.
    + injection H as <-. rewrite lookup_empty. reflexivity.
Qed.

Lemma buildPreviousClaims_witness :
  exists pc,
    Distributor.buildPreviousClaims (Some Scenario.round1_blob) = Ok pc /\
    default ∅ (pc !! Scenario.user2) !! Scenario.tokenB = Some 1500.
Proof.
  destruct (buildPreviousClaims_lookup (Some Scenario.round1_blob)) as [Hok Hl].
  destruct (proj1 (Hok Scenario.round1_blob eq_refl)) as [pc Hpc];
    [vm_compute; reflexivity|].
  exists pc. split; [exact Hpc|].
  rewrite (Hl pc Hpc). vm_compute. reflexivity.
Defined.

Lemma buildPreviousClaims_cumulative (prev : option Distribution)
    (pc : gmap string (gmap string Z)) (r t : string) :
  Distributor.buildPreviousClaims prev = Ok pc ->
  default 0 (default ∅ (pc !! r) !! t) = previousCumulative prev r t.
Proof.
  intros H. destruct prev as [d|]; simpl in H.
  - rewrite (previousClaims_loop _ _ _ r t H). unfold previousCumulative, rows.
    destruct (lastAmount (map value (values d)) r t); [reflexivity|].
    rewrite lookup_empty. reflexivity.
  - injection H as <-. rewrite lookup_empty. reflexivity.
Qed.

(** ** The rows of a round *)

Lemma claimGainSum_app pc T (l1 l2 : list Claim) :
  claimGainSum pc T (l1 ++ l2) = claimGainSum pc T l1 + claimGainSum pc T l2.
Proof.
  induction l1 as [|c l1 IH]; simpl; [lia|].
  rewrite IH. destruct (token c =? T)%string; lia.
Qed.

Lemma claimGainSum_other pc T (l : list Claim) :
  Forall (fun c => token c <> T) l -> claimGainSum pc T l = 0.
Proof.
  induction 1 as [|c l Hc _ IH]; simpl; [reflexivity|].
  apply String.eqb_neq in Hc. rewrite Hc. exact IH.
Qed.

Section Rows.

Variable options : DistributorOptions.
Variable w : World.
Variable previousDistribution : option Distribution.
Variable users : list string.
Variable totalSupply : Z.
Variable previousClaims : gmap string (gmap string Z).

Lemma processUser_rows actual T (user_list : list string) (st st' : list Claim * Z) :
  for_of (Distributor.processUser w totalSupply actual previousClaims T) user_list st
    = Ok st' ->
  exists new,
    st'.1 = st.1 ++ new /\
    st'.2 = st.2 + claimGainSum previousClaims T new /\
    map recipient new `sublist_of` user_list /\
    Forall (new_row w previousClaims T) new /\
    (new <> [] -> totalSupply <> 0).
Proof.
  revert st. induction user_list as [|u user_list IH]; intros st H; simpl in H.
  - injection H as <-. exists []. rewrite app_nil_r. simpl.
    split; [reflexivity|]. split; [lia|]. split; [apply sublist_nil_l|].
    split; [apply Forall_nil_2 | congruence].
  - apply bind_Ok in H as (st1 & Hu & H).
    destruct (IH _ H) as (new & Hcl & Htot & Hsub & Hall & Hne).
    unfold Distributor.processUser in Hu. destruct st as [cl tot].
    apply bind_Ok in Hu as (b & Hb & Hu). apply await_Ok in Hb.
    destruct (Z.leb_spec b 0) as [|Hpos].
    { injection Hu as <-. exists new. repeat split; try assumption.
      apply sublist_cons. exact Hsub. }
    apply bind_Ok in Hu as (share & Hshare & Hu).
    unfold Js.bigint_div in Hshare.
    destruct (Z.eqb_spec totalSupply 0) as [|HS]; [discriminate Hshare|].
    destruct (Z.gtb_spec (Z.quot (actual * share) precision) 0) as [Hgt|_].
    + injection Hu as <-. simpl in Hcl, Htot.
      exists ({| recipient := u; token := T;
                 amount := default 0 (default ∅ (previousClaims !! u) !! T)
                           + Z.quot (actual * share) precision |} :: new).
      simpl. rewrite String.eqb_refl.
      split; [rewrite Hcl, <- app_assoc; reflexivity|].
      split; [rewrite Htot; unfold claimGain; simpl; lia|].
      split; [apply sublist_skip; exact Hsub|].
      split; [|intros _; exact HS].
      constructor; [|exact Hall].
      split; [reflexivity|]. split; [exists b; split; [exact Hb | lia]|].
      unfold claimGain. simpl. lia.
    + injection Hu as <-. exists new. repeat split; try assumption.
      apply sublist_cons. exact Hsub.
Qed.

Lemma processToken_rows T (st st' : list Claim * gmap string numstr) :
  Distributor.processToken options w previousDistribution users totalSupply
    previousClaims st T = Ok st' ->
  exists new before D,
    previousTotal previousDistribution T = Ok before /\
    Distributor.calculateDistributableAmount options w T previousDistribution = Ok D /\
    st'.1 = st.1 ++ new /\
    st'.2 = <[T := Dec (before + claimGainSum previousClaims T new)]> st.2 /\
    map recipient new `sublist_of` users /\
    Forall (new_row w previousClaims T) new /\
    (new <> [] -> 0 < D /\ totalSupply <> 0).
Proof.
  unfold Distributor.processToken. destruct st as [cl totals]. intros H.
  apply bind_Ok in H as (before & Hbefore & H).
  apply bind_Ok in H as (D & HD & H).
  destruct (Z.leb_spec D 0) as [Hle|Hpos].
  - injection H as <-. exists [], before, D. simpl.
    rewrite app_nil_r, Z.add_0_r.
    split; [exact Hbefore|]. split; [exact HD|]. split; [reflexivity|].
    split; [reflexivity|]. split; [apply sublist_nil_l|].
    split; [apply Forall_nil_2 | congruence].
  - apply bind_Ok in H as (feeBps & _ & H).
    apply bind_Ok in H as (st1 & Hloop & H). injection H as <-.
    destruct (processUser_rows _ _ _ _ _ Hloop) as (new & Hcl & Htot & Hsub & Hall & Hne).
    exists new, before, D. simpl in *. rewrite Htot.
    repeat split; try assumption. apply Hne. assumption.
Qed.

Lemma processToken_loop_rows (tokens : list string)
    (st st' : list Claim * gmap string numstr) :
  for_of (Distributor.processToken options w previousDistribution users totalSupply
            previousClaims) tokens st = Ok st' ->
  exists new,
    st'.1 = st.1 ++ new /\
    Forall (fun c => token c ∈ tokens /\ recipient c ∈ users /\
                     new_row w previousClaims (token c) c) new /\
    (NoDup users -> NoDup tokens ->
     NoDup (map (fun c => (recipient c, token c)) new)) /\
    (forall T, T ∉ tokens -> st'.2 !! T = st.2 !! T) /\
    (NoDup tokens -> forall T, T ∈ tokens ->
       exists before,
         previousTotal previousDistribution T = Ok before /\
         st'.2 !! T = Some (Dec (before + claimGainSum previousClaims T new))) /\
    (new <> [] ->
     totalSupply <> 0 /\
     exists T D, T ∈ tokens /\
       Distributor.calculateDistributableAmount options w T previousDistribution = Ok D /\
       0 < D).
Proof.
  revert st. induction tokens as [|T tokens IH]; intros st H; simpl in H.
  - injection H as <-. exists []. rewrite app_nil_r.
    split; [reflexivity|]. split; [apply Forall_nil_2|].
    split; [intros _ _; apply NoDup_nil_2|].
    split; [reflexivity|].
    split; [intros _ T HT; inversion HT | congruence].
  - apply bind_Ok in H as (st1 & HT & H).
    destruct (processToken_rows _ _ _ HT)
      as (g & before & D & Hbefore & HD & Hcl1 & Htot1 & Hsub & Hg & Hgne).
    destruct (IH _ H) as (new & Hcl & Hall & Hnodup & Hout & Hin & Hne).
    assert (HgT : Forall (fun c => token c = T) g).
    { eapply Forall_impl; [exact Hg|]. intros c Hc. apply Hc. }
    assert (HnewT : T ∉ tokens -> Forall (fun c => token c <> T) new).
    { intros HnT. eapply Forall_impl; [exact Hall|].
      intros c [Hc _] E. rewrite E in Hc. contradiction. }
    exists (g ++ new).
    split; [rewrite Hcl, Hcl1, <- app_assoc; reflexivity|].
    split.
    { apply Forall_app. split.
      - rewrite Forall_forall in Hg |- *. intros c Hc.
        destruct (Hg c Hc) as [Htok Hrest].
        split; [rewrite Htok; left|].
        split; [|split; [reflexivity | exact Hrest]].
        eapply elem_of_sublist; [|exact Hsub].
        apply list_elem_of_fmap_2. exact Hc.
      - eapply Forall_impl; [exact Hall|].
        intros c (Hc1 & Hc2 & Hc3). split; [right; exact Hc1|]. split; assumption. }
    split.
    { intros Hu Htokens. apply NoDup_cons in Htokens as [HnT Htokens].
      rewrite map_app. apply NoDup_app. split; [|split].
      - apply (NoDup_fmap_1 fst). rewrite <- list_fmap_compose.
        eapply sublist_NoDup; [exact Hu | exact Hsub].
      - intros p Hp1 Hp2.
        apply list_elem_of_fmap in Hp1 as (c1 & -> & Hc1).
        apply list_elem_of_fmap in Hp2 as (c2 & E & Hc2).
        rewrite Forall_forall in HgT. specialize (HgT c1 Hc1).
        specialize (HnewT HnT). rewrite Forall_forall in HnewT.
        apply (HnewT c2 Hc2). injection E as _ E. congruence.
      - apply Hnodup; assumption. }
    split.
    { intros T' HT'. rewrite Hout by (intros Hx; apply HT'; right; exact Hx).
      rewrite Htot1. apply lookup_insert_ne. intros ->. apply HT'. left. }
    split.
    { intros Htokens T' HT'. apply NoDup_cons in Htokens as [HnT Htokens].
      rewrite claimGainSum_app.
      apply elem_of_cons in HT' as [->|HT'].
      - exists before. split; [exact Hbefore|].
        rewrite (Hout T HnT), Htot1, lookup_insert_eq.
        rewrite (claimGainSum_other _ T new (HnewT HnT)), Z.add_0_r. reflexivity.
      - destruct (Hin Htokens T' HT') as (before' & Hb' & Hl').
        exists before'. split; [exact Hb'|]. rewrite Hl'.
        rewrite (claimGainSum_other _ T' g); [reflexivity|].
        eapply Forall_impl; [exact HgT|]. intros c -> ->. contradiction. }
    intros Hnew. destruct g as [|c g].
    + simpl in Hnew. destruct (Hne Hnew) as (HS & T' & D' & HT' & HD' & Hpos).
      split; [exact HS|]. exists T', D'. split; [right; exact HT'|]. split; assumption.
    + destruct Hgne as [Hpos HS]; [discriminate|].
      split; [exact HS|]. exists T, D. split; [left|]. split; assumption.
Qed.

End Rows.

Lemma Set_add_NoDup (s : list string) (x : string) : NoDup s -> NoDup (Js.Set_add s x).
Proof.
  intros Hs. unfold Js.Set_add. destruct (bool_decide (x ∈ s)) eqn:Hb; [exact Hs|].
  apply bool_decide_eq_false_1 in Hb.
  apply NoDup_app. split; [exact Hs|]. split; [|apply NoDup_singleton].
  intros y Hy Hx. apply list_elem_of_singleton in Hx. subst y. contradiction.
Qed.

Lemma Set_add_all_NoDup (s l : list string) : NoDup s -> NoDup (Js.Set_add_all s l).
Proof.
  revert s. induction l as [|x l IH]; intros s Hs; [exact Hs|].
  apply IH, Set_add_NoDup, Hs.
Qed.

Lemma allUsers_NoDup (prev : option Distribution) (newUsers : list string) :
  NoDup (Distributor.allUsers prev newUsers).
Proof.
  unfold Distributor.allUsers. apply Set_add_all_NoDup.
  destruct prev; [apply Set_add_all_NoDup|]; apply NoDup_nil_2.
Qed.

Lemma gainSum_Permutation (prev : option Distribution) (T : string) (l1 l2 : list Value) :
  l1 ≡ₚ l2 -> gainSum prev T l1 = gainSum prev T l2.
Proof.
  induction 1 as [|v l1 l2 _ IH|v1 v2 l|l1 l2 l3 _ IH1 _ IH2]; simpl.
  - reflexivity.
  - rewrite IH. reflexivity.
  - destruct v1 as [[r1 t1] [z1|]], v2 as [[r2 t2] [z2|]];
      destruct (t1 =? T)%string, (t2 =? T)%string; lia.
  - congruence.
Qed.

Lemma gainSum_claims (prev : option Distribution) (pc : gmap string (gmap string Z))
    (T : string) (claims : list Claim) :
  Distributor.buildPreviousClaims prev = Ok pc ->
  gainSum prev T (map value_of_claim claims) = claimGainSum pc T claims.
Proof.
  intros Hpc. induction claims as [|c claims IH]; simpl; [reflexivity|].
  rewrite IH. unfold claimGain.
  rewrite (buildPreviousClaims_cumulative _ _ _ _ Hpc). reflexivity.
Qed.

Lemma gainSum_genesis (T : string) (vs : list Value) :
  gainSum None T vs = tokenSum T vs.
Proof.
  induction vs as [|[[r t] [z|]] vs IH]; simpl; [reflexivity| |exact IH].
  rewrite IH, Z.sub_0_r. reflexivity.
Qed.

Lemma lastAmount_unique (vs : list Value) (r t : string) (z : Z) :
  NoDup (map pair_of vs) -> (r, t, Dec z) ∈ vs -> lastAmount vs r t = Some z.
Proof.
  induction vs as [|[[r' t'] a] vs IH]; intros Hnd Hin; [inversion Hin|].
  simpl in Hnd. apply NoDup_cons in Hnd as [Hfresh Hnd]. simpl.
  apply elem_of_cons in Hin as [E|Hin].
  - injection E as <- <- <-.
    assert (Hnone : lastAmount vs r t = None).
    { clear IH Hnd. induction vs as [|[[r2 t2] a2] vs IHv]; [reflexivity|].
      simpl. rewrite IHv.
      - rewrite bool_decide_eq_false_2; [reflexivity|].
        intros [-> ->]. apply Hfresh. left.
      - intros Hx. apply Hfresh. right. exact Hx. }
    rewrite Hnone, bool_decide_eq_true_2; [reflexivity | split; reflexivity].
  - rewrite (IH Hnd Hin). reflexivity.
Qed.

Section Round.

Variable lib : MerkleLib.
Variable options : DistributorOptions.
Variable w : World.

(** A successful round, with the claims it pushed. *)
Lemma generateDistribution_round (g : Generated) :
  Distributor.generateDistribution lib options w = Ok g ->
  exists prev lastProcessedBlock currentBlock newUsers totalSupply pc tokens new,
    Distributor.loadPreviousDistribution lib w
      (Distributor.getPreviousDistributionInfo w) = Ok prev /\
    distributor_lastProcessedBlock w = Some lastProcessedBlock /\
    provider_getBlockNumber w = Some currentBlock /\
    Distributor.getWrapperUsers options w lastProcessedBlock currentBlock = Ok newUsers /\
    wrapper_totalSupply w = Some totalSupply /\
    Distributor.buildPreviousClaims prev = Ok pc /\
    distributor_getTokens w = Some tokens /\
    for_of (Distributor.processToken options w prev
              (Distributor.allUsers prev newUsers) totalSupply pc)
           tokens ([], ∅) = Ok (new, totalDistributed (distribution g)) /\
    new <> [] /\
    rows (distribution g) ≡ₚ map value_of_claim new.
Proof.
  intros H. apply generateDistribution_Ok in H as (prev & Hprev & H).
  apply distribute_Ok in H
    as (lpb & cur & newUsers & S & pc & tokens & st & Hlpb & Hcur & Hnew & HS
        & Hpc & Htokens & Hloop & Hne & Hrows & Htot & _).
  exists prev, lpb, cur, newUsers, S, pc, tokens, st.1.
  repeat (split; [assumption|]).
  split; [rewrite Htot; destruct st; exact Hloop|].
  split; [exact Hne|].
  rewrite Hrows. apply fmap_Permutation, sort_Permutation.
Qed.

(** X2. Every row of a generated blob was pushed in this round: its token
    is one of the listed tokens, its recipient is a candidate who holds
    wrapper shares, and its amount is a number above the cumulative amount
    of the pair in the previous blob (above zero when there is none). *)
Theorem generateDistribution_rows_are_new (g : Generated) :
  Distributor.generateDistribution lib options w = Ok g ->
  exists prev tokens lastProcessedBlock currentBlock newUsers,
    Distributor.loadPreviousDistribution lib w
      (Distributor.getPreviousDistributionInfo w) = Ok prev /\
    distributor_getTokens w = Some tokens /\
    distributor_lastProcessedBlock w = Some lastProcessedBlock /\
    provider_getBlockNumber w = Some currentBlock /\
    Distributor.getWrapperUsers options w lastProcessedBlock currentBlock = Ok newUsers /\
    forall v, v ∈ rows (distribution g) ->
      exists z b,
        v.2 = Dec z /\
        v.1.2 ∈ tokens /\
        v.1.1 ∈ Distributor.allUsers prev newUsers /\
        wrapper_balanceOf w v.1.1 = Some b /\ 0 < b /\
        previousCumulative prev v.1.1 v.1.2 < z.
Proof.
  intros H. apply generateDistribution_round in H
    as (prev & lpb & cur & newUsers & S & pc & tokens & new & Hprev & Hlpb & Hcur
        & Hnew & _ & Hpc & Htokens & Hloop & _ & Hrows).
  exists prev, tokens, lpb, cur, newUsers.
  repeat (split; [assumption|]).
  destruct (processToken_loop_rows _ _ _ _ _ _ _ _ _ Hloop) as (new' & E & Hall & _).
  simpl in E. subst new'.
  intros v Hv. rewrite Hrows in Hv.
  apply list_elem_of_fmap in Hv as (c & -> & Hc).
  rewrite Forall_forall in Hall.
  destruct (Hall c Hc) as (Htok & Huser & _ & (b & Hb & Hpos) & Hgain).
  exists (amount c), b. simpl.
  repeat (split; [first [reflexivity | assumption]|]).
  unfold claimGain in Hgain.
  rewrite (buildPreviousClaims_cumulative _ _ _ _ Hpc) in Hgain. lia.
Qed.

(** X3. When the contract lists every token once, a generated blob has at
    most one row for each (recipient, token) pair. *)
Theorem generateDistribution_pairs_unique (g : Generated) (tokens : list string) :
  Distributor.generateDistribution lib options w = Ok g ->
  distributor_getTokens w = Some tokens -> NoDup tokens ->
  NoDup (map pair_of (rows (distribution g))).
Proof.
  intros H Htok Hnd. apply generateDistribution_round in H
    as (prev & lpb & cur & newUsers & S & pc & tokens' & new & _ & _ & _
        & _ & _ & _ & Htokens & Hloop & _ & Hrows).
  rewrite Htok in Htokens. injection Htokens as <-.
  destruct (processToken_loop_rows _ _ _ _ _ _ _ _ _ Hloop) as (new' & E & _ & Hpairs & _).
  simpl in E. subst new'.
  rewrite Hrows, <- list_fmap_compose.
  apply Hpairs; [apply allUsers_NoDup | exact Hnd].
Qed.

(** X4. When the contract lists every token once, the total of a listed
    token in a generated blob is its total in the previous blob (zero when
    there is none) plus what the rows of the token add to the previous
    cumulative amounts of their pairs; a token that is not listed has no
    total. *)
Theorem generateDistribution_totals_accumulate (g : Generated) (tokens : list string) :
  Distributor.generateDistribution lib options w = Ok g ->
  distributor_getTokens w = Some tokens -> NoDup tokens ->
  exists prev,
    Distributor.loadPreviousDistribution lib w
      (Distributor.getPreviousDistributionInfo w) = Ok prev /\
    (forall T, T ∈ tokens ->
       exists before,
         previousTotal prev T = Ok before /\
         totalDistributed (distribution g) !! T
         = Some (Dec (before + gainSum prev T (rows (distribution g))))) /\
    (forall T, T ∉ tokens -> totalDistributed (distribution g) !! T = None).
Proof.
  intros H Htok Hnd. apply generateDistribution_round in H
    as (prev & lpb & cur & newUsers & S & pc & tokens' & new & Hprev & _ & _
        & _ & _ & Hpc & Htokens & Hloop & _ & Hrows).
  rewrite Htok in Htokens. injection Htokens as <-.
  destruct (processToken_loop_rows _ _ _ _ _ _ _ _ _ Hloop)
    as (new' & E & _ & _ & Hout & Hin & _).
  simpl in E, Hout, Hin. subst new'.
  exists prev. split; [exact Hprev|]. split.
  - intros T HT. destruct (Hin Hnd T HT) as (before & Hb & Hl).
    exists before. split; [exact Hb|].
    rewrite Hl, (gainSum_Permutation _ _ _ _ Hrows), (gainSum_claims _ _ _ _ Hpc).
    reflexivity.
  - intros T HT. rewrite (Hout T HT). apply lookup_empty.
Qed.

(** X5. In a round without a previous distribution (the contract has no
    cid or no root), with every token listed once, the total of each listed
    token equals the sum of the amounts of its rows. *)
Theorem generateDistribution_genesis_totals (g : Generated) (tokens : list string) :
  Distributor.generateDistribution lib options w = Ok g ->
  Distributor.getPreviousDistributionInfo w = None ->
  distributor_getTokens w = Some tokens -> NoDup tokens ->
  forall T, T ∈ tokens ->
    totalDistributed (distribution g) !! T
    = Some (Dec (tokenSum T (rows (distribution g)))).
Proof.
  intros H Hinfo Htok Hnd T HT. apply generateDistribution_round in H
    as (prev & lpb & cur & newUsers & S & pc & tokens' & new & Hprev & _ & _
        & _ & _ & Hpc & Htokens & Hloop & _ & Hrows).
  rewrite Htok in Htokens. injection Htokens as <-.
  rewrite Hinfo in Hprev. simpl in Hprev. injection Hprev as <-.
  destruct (processToken_loop_rows _ _ _ _ _ _ _ _ _ Hloop)
    as (new' & E & _ & _ & _ & Hin & _).
  simpl in E, Hin. subst new'.
  destruct (Hin Hnd T HT) as (before & Hb & Hl).
  simpl in Hb. injection Hb as <-.
  rewrite Hl, <- gainSum_genesis.
  rewrite (gainSum_Permutation _ _ _ _ Hrows), (gainSum_claims _ _ _ _ Hpc).
  reflexivity.
Qed.

(** X6. A round that succeeds has something to publish: the blob has at
    least one row, the total supply of the wrapper is not zero, and at least
    one listed token had a positive distributable amount. *)
Theorem generateDistribution_never_empty (g : Generated) :
  Distributor.generateDistribution lib options w = Ok g ->
  rows (distribution g) <> [] /\
  (exists S, wrapper_totalSupply w = Some S /\ S <> 0) /\
  exists prev tokens T D,
    Distributor.loadPreviousDistribution lib w
      (Distributor.getPreviousDistributionInfo w) = Ok prev /\
    distributor_getTokens w = Some tokens /\ T ∈ tokens /\
    Distributor.calculateDistributableAmount options w T prev = Ok D /\ 0 < D.
Proof.
  intros H. apply generateDistribution_round in H
    as (prev & lpb & cur & newUsers & S & pc & tokens & new & Hprev & _ & _
        & _ & HS & _ & Htokens & Hloop & Hne & Hrows).
  destruct (processToken_loop_rows _ _ _ _ _ _ _ _ _ Hloop)
    as (new' & E & _ & _ & _ & _ & Hpos).
  simpl in E. subst new'.
  destruct (Hpos Hne) as (HS0 & T & D & HT & HD & HDpos).
  split.
  - intros E. rewrite E in Hrows. symmetry in Hrows.
    apply Permutation_nil_r in Hrows. apply fmap_nil_inv in Hrows. contradiction.
  - split; [exists S; split; assumption|].
    exists prev, tokens, T, D. repeat split; assumption.
Qed.

End Round.

Ltac nodup_strings := refine (bool_decide_unpack _ _); vm_compute; exact I.

Lemma generateDistribution_rows_are_new_witness :
  exists b, wrapper_balanceOf Scenario.round1 Scenario.user2 = Some b /\ 0 < b.
Proof.
  destruct (generateDistribution_rows_are_new Scenario.text_lib
              (Scenario.options_fee 0) Scenario.round1 Scenario.round1_generated)
    as (prev & tokens & lpb & cur & newUsers & _ & _ & _ & _ & _ & Hrows).
  - vm_compute. reflexivity.
  - destruct (Hrows (Scenario.user2, Scenario.tokenB, Dec 1500))
      as (z & b & _ & _ & _ & Hb & Hpos & _).
    + change (rows (distribution Scenario.round1_generated))
        with Scenario.round1_values.
      unfold Scenario.round1_values. do 3 right. left.
    + exists b. split; assumption.
Defined.

Lemma generateDistribution_pairs_unique_witness :
  NoDup (map pair_of (rows (distribution Scenario.round1_generated))).
Proof.
  apply (generateDistribution_pairs_unique Scenario.text_lib
           (Scenario.options_fee 0) Scenario.round1 Scenario.round1_generated
           [Scenario.tokenA; Scenario.tokenB]).
  - vm_compute. reflexivity.
  - reflexivity.
  - nodup_strings.
Defined.

Lemma generateDistribution_totals_accumulate_witness :
  totalDistributed (distribution Scenario.round1_generated) !! Scenario.tokenA
  = Some (Dec 1000000000000000000).
Proof.
  destruct (generateDistribution_totals_accumulate Scenario.text_lib
              (Scenario.options_fee 0) Scenario.round1 Scenario.round1_generated
              [Scenario.tokenA; Scenario.tokenB])
    as (prev & Hprev & Hin & _).
  - vm_compute. reflexivity.
  - reflexivity.
  - nodup_strings.
  - vm_compute in Hprev. injection Hprev as <-.
    destruct (Hin Scenario.tokenA) as (before & Hb & Hl); [left|].
    injection Hb as <-. rewrite Hl. vm_compute. reflexivity.
Defined.

Lemma generateDistribution_genesis_totals_witness :
  totalDistributed (distribution Scenario.round1_generated) !! Scenario.tokenB
  = Some (Dec 2000).
Proof.
  rewrite (generateDistribution_genesis_totals Scenario.text_lib
             (Scenario.options_fee 0) Scenario.round1 Scenario.round1_generated
             [Scenario.tokenA; Scenario.tokenB]).
  - vm_compute. reflexivity.
  - vm_compute. reflexivity.
  - reflexivity.
  - reflexivity.
  - nodup_strings.
  - right. left.
Defined.

Lemma generateDistribution_never_empty_witness :
  rows (distribution Scenario.round1_generated) <> [].
Proof.
  apply (generateDistribution_never_empty Scenario.text_lib
           (Scenario.options_fee 0) Scenario.round1 Scenario.round1_generated).
  vm_compute. reflexivity.
Defined.

(** ** From one round to the next *)

Lemma all_numbers_claims (claims : list Claim) :
  all_numbers (map value_of_claim claims) = true.
Proof. induction claims as [|c claims IH]; simpl; [reflexivity | exact IH]. Qed.

Lemma getPreviousDistributionInfo_Some (w : World) (c r : string) :
  Distributor.getPreviousDistributionInfo w = Some (c, r) <->
  distributor_cid w = Some c /\ distributor_root w = Some r /\
  c <> "" /\ r <> ZeroHash.
Proof.
  unfold Distributor.getPreviousDistributionInfo.
  destruct (distributor_cid w) as [c'|]; simpl;
    [|split; [discriminate | intros [H _]; discriminate H]].
  destruct (distributor_root w) as [r'|]; simpl;
    [|split; [discriminate | intros (_ & H & _); discriminate H]].
  destruct (String.eqb_spec c' "") as [Ec|Ec]; simpl.
  - split; [discriminate|]. intros ([= ->] & _ & Hc & _). contradiction.
  - destruct (String.eqb_spec r' ZeroHash) as [Er|Er].
    + split; [discriminate|]. intros (_ & [= ->] & _ & Hr). contradiction.
    + split.
      * intros [= <- <-]. repeat split; assumption.
      * intros ([= ->] & [= ->] & _). reflexivity.
Qed.

Section NextRound.

Variable lib : MerkleLib.
Variable options : DistributorOptions.
Variable w : World.

Lemma generateMerkleTree_rebuilt (claims : list Claim) (mt : StandardMerkleTree)
    (d : Distribution) :
  Distributor.generateMerkleTree lib claims = Ok mt ->
  values d = dump_values mt ->
  rebuiltRoot lib d = Some (root mt).
Proof.
  intros H Hd. destruct claims as [|c claims]; [discriminate H|].
  unfold Distributor.generateMerkleTree in H.
  unfold rebuiltRoot, rows. rewrite Hd, (StandardMerkleTree_of_values lib _ _ H).
  pose proof (all_numbers_claims (c :: claims)) as Hn.
  unfold StandardMerkleTree_of in H.
  simpl in Hn, H |- *. rewrite Hn.
  destruct (merkle_of lib _) as [[[r nodes] index]|]; [|discriminate H].
  injection H as <-. reflexivity.
Qed.

Lemma distribute_root previousInfo previousDistribution (g : Generated) :
  Distributor.distribute lib options w previousInfo previousDistribution = Ok g ->
  rebuiltRoot lib (distribution g) = Some (merkleRoot g).
Proof.
  unfold Distributor.distribute. intros H.
  apply bind_Ok in H as (lpb & _ & H).
  apply bind_Ok in H as (cur & _ & H).
  apply bind_Ok in H as (blk & _ & H).
  apply bind_Ok in H as (newUsers & _ & H).
  apply bind_Ok in H as (S & _ & H).
  apply bind_Ok in H as (pc & _ & H).
  apply bind_Ok in H as (tokens & _ & H).
  apply bind_Ok in H as (st & _ & H).
  apply bind_Ok in H as (mt & Hmt & H).
  apply bind_Ok in H as (c & _ & H).
  injection H as <-.
  apply (generateMerkleTree_rebuilt _ _ _ Hmt). reflexivity.
Qed.

(** X7. A blob generated by the engine passes the validation of the engine:
    the root rebuilt from its values is the root returned with it, and a
    later round on a chain that holds this root and this cid (the cid not
    empty, the root not the zero hash) loads the blob as its previous
    distribution. *)
Theorem generateDistribution_revalidates (g : Generated) :
  Distributor.generateDistribution lib options w = Ok g ->
  rebuiltRoot lib (distribution g) = Some (merkleRoot g) /\
  Distributor.validatePreviousDistribution lib (distribution g) (merkleRoot g) = true /\
  forall w',
    distributor_cid w' = Some (cid g) -> cid g <> "" ->
    distributor_root w' = Some (merkleRoot g) -> merkleRoot g <> ZeroHash ->
    ipfs_download w' (cid g) = Some (distribution g) ->
    Distributor.loadPreviousDistribution lib w'
      (Distributor.getPreviousDistributionInfo w') = Ok (Some (distribution g)).
Proof.
  intros H. apply generateDistribution_Ok in H as (prev & _ & H).
  apply distribute_root in H.
  assert (Hv : Distributor.validatePreviousDistribution lib (distribution g)
                 (merkleRoot g) = true)
    by (apply validatePreviousDistribution_rebuilt; exact H).
  split; [exact H|]. split; [exact Hv|].
  intros w' Hcid Hc Hroot Hr Hdl.
  assert (Hinfo : Distributor.getPreviousDistributionInfo w'
                  = Some (cid g, merkleRoot g))
    by (apply getPreviousDistributionInfo_Some; repeat split; assumption).
  rewrite Hinfo. unfold Distributor.loadPreviousDistribution.
  rewrite Hdl. simpl. rewrite Hv. reflexivity.
Qed.

(** X8. When the contract lists every token once, the next round reads
    back from a generated blob exactly what the blob says: the map of
    previous claims built from it holds, for every row, the amount of that
    row. *)
Theorem generateDistribution_read_back (g : Generated) (tokens : list string) :
  Distributor.generateDistribution lib options w = Ok g ->
  distributor_getTokens w = Some tokens -> NoDup tokens ->
  exists pc,
    Distributor.buildPreviousClaims (Some (distribution g)) = Ok pc /\
    forall r t z,
      (r, t, Dec z) ∈ rows (distribution g) ->
      default ∅ (pc !! r) !! t = Some z /\
      previousCumulative (Some (distribution g)) r t = z.
Proof.
  intros H Htok Hnd.
  assert (Hroot : rebuiltRoot lib (distribution g) = Some (merkleRoot g)).
  { apply generateDistribution_Ok in H as (prev & _ & H).
    eapply distribute_root. exact H. }
  assert (Hnum : all_numbers (rows (distribution g)) = true).
  { unfold rebuiltRoot in Hroot.
    destruct (rows (distribution g)) as [|v vs]; [discriminate Hroot|].
    destruct (all_numbers (v :: vs)); [reflexivity | discriminate Hroot]. }
  assert (Hpairs : NoDup (map pair_of (rows (distribution g)))).
  { apply generateDistribution_round in H
      as (prev & lpb & cur & newUsers & S & pc & tokens' & new & _ & _ & _
          & _ & _ & _ & Htokens & Hloop & _ & Hrows).
    rewrite Htok in Htokens. injection Htokens as <-.
    destruct (processToken_loop_rows _ _ _ _ _ _ _ _ _ Hloop)
      as (new' & E & _ & Hp & _).
    simpl in E. subst new'.
    rewrite Hrows, <- list_fmap_compose.
    apply Hp; [apply allUsers_NoDup | exact Hnd]. }
  destruct (proj1 (previousClaims_loop_Ok (values (distribution g)) ∅) Hnum)
    as [pc Hpc].
  exists pc. split; [exact Hpc|].
  intros r t z Hin.
  pose proof (lastAmount_unique _ _ _ _ Hpairs Hin) as Hlast.
  split.
  - rewrite (previousClaims_loop _ _ _ r t Hpc).
    unfold rows in Hlast. rewrite Hlast. reflexivity.
  - unfold previousCumulative. rewrite Hlast. reflexivity.
Qed.

(** X9. The header of a generated blob records where it comes from: its
    block number is the block number the provider reported, and its
    [prevTreeCid] is empty when the contract has no usable cid and root,
    and otherwise the cid of the contract, whose blob was downloaded and
    rebuilt to the root of the contract. *)
Theorem generateDistribution_header (g : Generated) :
  Distributor.generateDistribution lib options w = Ok g ->
  provider_getBlockNumber w = Some (blockNumber (distribution g)) /\
  format (distribution g) = "standard-v1" /\
  match Distributor.getPreviousDistributionInfo w with
  | None => prevTreeCid (distribution g) = ""
  | Some (c, r) =>
      prevTreeCid (distribution g) = c /\ c <> "" /\
      distributor_cid w = Some c /\ distributor_root w = Some r /\
      exists prev, ipfs_download w c = Some prev /\ rebuiltRoot lib prev = Some r
  end.
Proof.
  intros H. pose proof H as Hg.
  apply generateDistribution_Ok in H as (prev & Hprev & H).
  pose proof H as Hd.
  apply distribute_Ok in H
    as (lpb & cur & newUsers & S & pc & tokens & st & _ & Hcur & _ & _
        & _ & _ & _ & _ & _ & _ & Hblock & Hcid & _).
  split; [rewrite Hblock; exact Hcur|].
  split.
  { unfold Distributor.distribute in Hd.
    repeat (apply bind_Ok in Hd as (? & _ & Hd)).
    injection Hd as <-. reflexivity. }
  destruct (Distributor.getPreviousDistributionInfo w) as [[c r]|] eqn:Hinfo;
    [|exact Hcid].
  apply getPreviousDistributionInfo_Some in Hinfo as (Hc & Hr & Hne & _).
  split; [exact Hcid|]. split; [exact Hne|]. split; [exact Hc|]. split; [exact Hr|].
  unfold Distributor.loadPreviousDistribution in Hprev.
  apply bind_Ok in Hprev as (p & Hp & Hprev). apply await_Ok in Hp.
  exists p. split; [exact Hp|].
  apply validatePreviousDistribution_rebuilt.
  destruct (Distributor.validatePreviousDistribution lib p r);
    [reflexivity | discriminate Hprev].
Qed.

End NextRound.

Lemma generateDistribution_revalidates_witness :
  Distributor.loadPreviousDistribution Scenario.text_lib Scenario.round1_published
    (Distributor.getPreviousDistributionInfo Scenario.round1_published)
  = Ok (Some Scenario.round1_blob).
Proof.
  destruct (generateDistribution_revalidates Scenario.text_lib
              (Scenario.options_fee 0) Scenario.round1 Scenario.round1_generated)
    as (_ & _ & Hnext); [vm_compute; reflexivity|].
  apply (Hnext Scenario.round1_published).
  - reflexivity.
  - discriminate.
  - reflexivity.
  - intros E. vm_compute in E. discriminate E.
  - reflexivity.
Defined.

Lemma generateDistribution_read_back_witness :
  previousCumulative (Some (distribution Scenario.round1_generated))
    Scenario.user2 Scenario.tokenA = 750000000000000000.
Proof.
  destruct (generateDistribution_read_back Scenario.text_lib
              (Scenario.options_fee 0) Scenario.round1 Scenario.round1_generated
              [Scenario.tokenA; Scenario.tokenB])
    as (pc & _ & Hrows).
  - vm_compute. reflexivity.
  - reflexivity.
  - nodup_strings.
  - apply (Hrows Scenario.user2 Scenario.tokenA 750000000000000000).
    change (rows (distribution Scenario.round1_generated))
      with Scenario.round1_values.
    unfold Scenario.round1_values. do 2 right. left.
Defined.

Lemma generateDistribution_header_witness :
  provider_getBlockNumber Scenario.round1
  = Some (blockNumber (distribution Scenario.round1_generated)).
Proof.
  apply (generateDistribution_header Scenario.text_lib (Scenario.options_fee 0)
           Scenario.round1 Scenario.round1_generated).
  vm_compute. reflexivity.
Defined.

(** ** Bounds of the apportioning *)

Lemma fee_bound (D bps : Z) :
  0 <= D -> 0 <= bps <= 10000 ->
  0 <= Z.quot (D * bps) 10000 <= D.
Proof.
  intros HD Hbps.
  rewrite Z.quot_div_nonneg by nia.
  split; [apply Z.div_pos; nia|].
  apply Z.div_le_upper_bound; nia.
Qed.

Lemma alloc_bound (D bps S b : Z) :
  0 <= D - Z.quot (D * bps) 10000 -> 0 < S -> 0 <= b ->
  0 <= alloc D bps S b /\
  alloc D bps S b * 10 ^ 18 * S <= (D - Z.quot (D * bps) 10000) * 10 ^ 18 * b.
Proof.
  intros HA HS Hb. unfold alloc. cbv zeta.
  set (A := D - Z.quot (D * bps) 10000) in *.
  assert (HP : 0 < 10 ^ 18) by reflexivity.
  set (P := 10 ^ 18) in *.
  rewrite (Z.quot_div_nonneg (b * P) S) by nia.
  assert (Hs0 : 0 <= b * P / S) by (apply Z.div_pos; nia).
  assert (Hs : S * (b * P / S) <= b * P) by (apply Z.mul_div_le; exact HS).
  set (s := b * P / S) in *.
  rewrite (Z.quot_div_nonneg (A * s) P) by nia.
  assert (Ha0 : 0 <= A * s / P) by (apply Z.div_pos; nia).
  assert (Ha : P * (A * s / P) <= A * s) by (apply Z.mul_div_le; exact HP).
  set (a := A * s / P) in *.
  split; [exact Ha0|]. nia.
Qed.

Lemma allocated_bound (D bps S : Z) (bal : string -> Z) (users : list string) :
  0 <= D - Z.quot (D * bps) 10000 -> 0 < S ->
  (forall u, u ∈ users -> 0 <= bal u) ->
  0 <= allocated D bps S bal users /\
  allocated D bps S bal users * 10 ^ 18 * S
  <= (D - Z.quot (D * bps) 10000) * 10 ^ 18 * heldShares bal users.
Proof.
  intros HA HS. induction users as [|u users IH]; intros Hbal; simpl; [lia|].
  destruct IH as [IH0 IH]; [intros u' Hu'; apply Hbal; right; exact Hu'|].
  assert (Hu : 0 <= bal u) by (apply Hbal; left).
  destruct (alloc_bound D bps S (bal u) HA HS Hu) as [Ha0 Ha].
  assert (HP : 0 < 10 ^ 18) by reflexivity.
  destruct (Z.eqb_spec (bal u) 0) as [Hz|Hnz]; [split; [exact IH0 | nia]|].
  destruct (Z.ltb_spec 0 (alloc D bps S (bal u))); split; nia.
Qed.

Section Bounds.

Variable options : DistributorOptions.
Variable w : World.
Variable previousDistribution : option Distribution.
Variable totalSupply : Z.
Variable previousClaims : gmap string (gmap string Z).
Variable T : string.
Variables D bps before : Z.

Hypothesis total_read : previousTotal previousDistribution T = Ok before.
Hypothesis distributable :
  Distributor.calculateDistributableAmount options w T previousDistribution = Ok D.
Hypothesis positive : 0 < D.
Hypothesis fee_read : Js.BigInt_floor (operatorFee options * 100)%float = Ok bps.

Lemma processToken_loop (users : list string) (st : list Claim * gmap string numstr) :
  Distributor.processToken options w previousDistribution users totalSupply
    previousClaims st T
  = let* st' :=
      for_of (Distributor.processUser w totalSupply (D - Z.quot (D * bps) 10000)
                previousClaims T)
             users (st.1, before) in
    Ok (st'.1, <[T := toString st'.2]> st.2).
Proof.
  unfold Distributor.processToken. destruct st as [cl totals].
  unfold previousTotal in total_read. rewrite total_read, distributable. simpl.
  destruct (Z.leb_spec D 0) as [|_]; [lia|].
  rewrite fee_read. reflexivity.
Qed.

(** X10. With a fee between 0 and 100 percent, a positive total supply and
    candidates whose shares add up to at most the total supply, the round
    gives out for a token at most what is distributable after the fee: the
    total of the token grows by an amount between zero and [D - fee]. *)
Theorem processToken_within_distributable (users : list string)
    (bal : string -> Z) (allClaims : list Claim) (totals : gmap string numstr) :
  0 <= bps <= 10000 -> 0 < totalSupply ->
  (forall u, u ∈ users -> wrapper_balanceOf w u = Some (bal u) /\ 0 <= bal u) ->
  heldShares bal users <= totalSupply ->
  exists claims after,
    Distributor.processToken options w previousDistribution users totalSupply
      previousClaims (allClaims, totals) T
    = Ok (claims, <[T := Dec after]> totals) /\
    before <= after /\
    after - before <= D - Z.quot (D * bps) 10000 /\
    D - Z.quot (D * bps) 10000 <= D.
Proof.
  intros Hbps HS Hbal Hheld.
  rewrite processToken_loop. simpl.
  rewrite (processUser_loop w totalSupply previousClaims T bal D bps)
    by (try lia; exact Hbal).
  simpl. eexists _, _. split; [reflexivity|].
  destruct (fee_bound D bps) as [Hf0 Hf]; [lia | exact Hbps|].
  destruct (allocated_bound D bps totalSupply bal users) as [Ha0 Ha];
    [lia | exact HS | intros u Hu; apply Hbal; exact Hu|].
  assert (HP : 0 < 10 ^ 18) by reflexivity.
  split; [lia|]. split; [|lia].
  assert (allocated D bps totalSupply bal users * (10 ^ 18 * totalSupply)
          <= (D - Z.quot (D * bps) 10000) * (10 ^ 18 * totalSupply)) by nia.
  assert (0 < 10 ^ 18 * totalSupply) by nia.
  nia.
Qed.


(** X12. With a total supply of zero the round cannot apportion: as soon
    as one candidate holds shares, the division by the supply throws a
    RangeError and the round fails. *)
Theorem processToken_zero_supply (users : list string) (bal : string -> Z)
    (st : list Claim * gmap string numstr) :
  totalSupply = 0 ->
  (forall u, u ∈ users -> wrapper_balanceOf w u = Some (bal u)) ->
  (exists u, u ∈ users /\ 0 < bal u) ->
  Distributor.processToken options w previousDistribution users totalSupply
    previousClaims st T
  = Err RangeError.
Proof.
  intros HS Hbal Hex. rewrite processToken_loop.
  assert (Hloop : forall acc,
            for_of (Distributor.processUser w totalSupply
                      (D - Z.quot (D * bps) 10000) previousClaims T) users acc
            = Err RangeError).
  { induction users as [|u users' IH]; intros acc.
    - destruct Hex as (u & Hu & _). inversion Hu.
    - simpl. unfold Distributor.processUser at 1. destruct acc as [cl tot].
      rewrite (Hbal u) by left. simpl.
      destruct (Z.leb_spec (bal u) 0) as [Hle|Hgt].
      + simpl. apply IH.
        * intros u' Hu'. apply Hbal. right. exact Hu'.
        * destruct Hex as (u' & Hu' & Hpos).
          apply elem_of_cons in Hu' as [->|Hu']; [lia|].
          exists u'. split; assumption.
      + unfold Js.bigint_div. rewrite HS. reflexivity. }
  rewrite Hloop. reflexivity.
Qed.

End Bounds.

Lemma processToken_within_distributable_witness :
  exists claims after,
    Distributor.processToken (Scenario.options_fee 10) Scenario.round1 None
      [Scenario.user1; Scenario.user2] 4000000000000000000 ∅ ([], ∅) Scenario.tokenA
    = Ok (claims, <[Scenario.tokenA := Dec after]> ∅) /\
    0 <= after /\
    after - 0 <= 1000000000000000000 - Z.quot (1000000000000000000 * 1000) 10000 /\
    1000000000000000000 - Z.quot (1000000000000000000 * 1000) 10000
    <= 1000000000000000000.
Proof.
  apply (processToken_within_distributable (Scenario.options_fee 10) Scenario.round1
           None 4000000000000000000 ∅ Scenario.tokenA 1000000000000000000 1000 0)
    with (bal := fun u => default 0 (wrapper_balanceOf Scenario.round1 u)).
  - reflexivity.
  - vm_compute. reflexivity.
  - lia.
  - vm_compute. reflexivity.
  - lia.
  - lia.
  - intros u _. simpl.
    destruct (u =? Scenario.user1)%string; [split; [reflexivity | simpl; lia]|].
    destruct (u =? Scenario.user2)%string; split; try reflexivity; simpl; lia.
  - vm_compute. discriminate.
Defined.


Lemma processToken_zero_supply_witness :
  Distributor.processToken (Scenario.options_fee 0) Scenario.zero_supply None
    [Scenario.user1] 0 ∅ ([], ∅) Scenario.tokenA
  = Err RangeError.
Proof.
  apply (processToken_zero_supply (Scenario.options_fee 0) Scenario.zero_supply
           None 0 ∅ Scenario.tokenA 1000000000000000000 0 0)
    with (bal := fun u => default 0 (wrapper_balanceOf Scenario.zero_supply u)).
  - reflexivity.
  - vm_compute. reflexivity.
  - lia.
  - vm_compute. reflexivity.
  - reflexivity.
  - intros u _. simpl.
    destruct (u =? Scenario.user1)%string; [reflexivity|].
    destruct (u =? Scenario.user2)%string; reflexivity.
  - exists Scenario.user1. split; [left | vm_compute; reflexivity].
Defined.

(** ** Looking up recipients *)

Lemma findIndex_from_first {A : Type} (p : A -> bool) (l : list A) (i : Z) :
  0 <= i ->
  (ProofGenerator.findIndex_from p l i = -1 /\ forall x, x ∈ l -> p x = false) \/
  (exists (k : nat) (x : A),
      ProofGenerator.findIndex_from p l i = i + Z.of_nat k /\
      l !! k = Some x /\ p x = true /\
      forall (j : nat) y, (j < k)%nat -> l !! j = Some y -> p y = false).
Proof.
  revert i. induction l as [|y l IH]; intros i Hi; simpl.
  - left. split; [reflexivity|]. intros x Hx. inversion Hx.
  - destruct (p y) eqn:Hy.
    + right. exists 0%nat, y. split; [lia|]. split; [reflexivity|].
      split; [exact Hy|]. intros j y' Hj. lia.
    + destruct (IH (i + 1)) as [[Hnone Hall]|(k & x & Hk & Hx & Hp & Hfirst)]; [lia| |].
      * left. split; [exact Hnone|].
        intros x Hx. apply elem_of_cons in Hx as [->|Hx]; auto.
      * right. exists (S k), x. split; [lia|]. split; [exact Hx|].
        split; [exact Hp|].
        intros [|j] y' Hj Hy'; simpl in Hy'.
        -- injection Hy' as <-. exact Hy.
        -- apply (Hfirst j); [lia | exact Hy'].
Qed.

Section RecipientLookup.

Variable lib : MerkleLib.
Variable d : Distribution.

Hypothesis loads : merkle_load lib d = true.
Hypothesis proves :
  forall i, 0 <= i < Z.of_nat (length (values d)) ->
            is_Some (merkle_getProof lib d i).

(** X13. The lookup by address answers for the first row that names the
    recipient, up to letter case, and for no other: [getRecipientInfo]
    returns [null] exactly when no row names the recipient, otherwise the
    value and the position of the first such row, and the proof generated
    for the recipient is the proof of that same row.  A recipient with rows
    for several tokens gets the first of them only. *)
Theorem recipient_lookup_first (recipient : string) :
  (ProofGenerator.getRecipientInfo d recipient = None <->
   ~ exists v, v ∈ values d /\ names recipient v) /\
  (forall info, ProofGenerator.getRecipientInfo d recipient = Some info ->
     exists (k : nat) v proof,
       info = (Some (value v), Z.of_nat k) /\
       values d !! k = Some v /\ names recipient v /\
       (forall (j : nat) v', (j < k)%nat -> values d !! j = Some v' ->
                             ~ names recipient v') /\
       merkle_getProof lib d (Z.of_nat k) = Some proof /\
       ProofGenerator.generateProofForRecipient lib d recipient
       = Ok (Some {| ProofGenerator.pr_proof := proof;
                     ProofGenerator.pr_value := Some (value v);
                     ProofGenerator.pr_treeIndex := Z.of_nat k |})).
Proof.
  unfold ProofGenerator.getRecipientInfo, ProofGenerator.generateProofForRecipient,
    ProofGenerator.load, ProofGenerator.findIndex.
  rewrite loads. simpl.
  destruct (findIndex_from_first (ProofGenerator.same_recipient recipient)
              (values d) 0) as [[Hnone Hall]|(k & v & Hk & Hv & Hp & Hfirst)]; [lia| |].
  - rewrite Hnone. simpl. split; [|discriminate].
    split; [|reflexivity]. intros _ (v & Hv & Hname).
    specialize (Hall v Hv). unfold ProofGenerator.same_recipient in Hall.
    apply String.eqb_neq in Hall. contradiction.
  - rewrite Z.add_0_l in Hk. rewrite Hk.
    destruct (Z.eqb_spec (Z.of_nat k) (-1)) as [|_]; [lia|].
    assert (Hname : names recipient v) by (apply String.eqb_eq; exact Hp).
    split.
    + split; [discriminate|]. intros H. exfalso. apply H.
      exists v. split; [|exact Hname]. eapply list_elem_of_lookup_2. exact Hv.
    + intros info [= <-].
      destruct (proves (Z.of_nat k)) as [proof Hproof].
      { apply lookup_lt_Some in Hv. lia. }
      exists k, v, proof. rewrite Nat2Z.id, Hv, Hproof. simpl.
      repeat split; try assumption.
      intros j v' Hj Hv' Hn. specialize (Hfirst j v' Hj Hv').
      unfold ProofGenerator.same_recipient in Hfirst.
      apply String.eqb_neq in Hfirst. contradiction.
Qed.

(** X14. The listing of the recipients and the lookup by index agree: the
    listing has one entry for each row, in order, and the index shown with
    an entry is the index for which [generateProofByIndex] returns the row
    with that address and that amount. *)
Theorem listing_matches_index :
  length (ProofGenerator.getAllRecipients d) = length (values d) /\
  forall a amt i,
    (a, amt, i) ∈ ProofGenerator.getAllRecipients d ->
    0 <= i < Z.of_nat (length (values d)) /\
    exists proof t position,
      ProofGenerator.generateProofByIndex lib d i
      = Ok (Some {| ProofGenerator.pr_proof := proof;
                    ProofGenerator.pr_value := Some (a, t, amt);
                    ProofGenerator.pr_treeIndex := position |}).
Proof.
  split; [apply length_imap|].
  intros a amt i Hin. unfold ProofGenerator.getAllRecipients in Hin.
  apply elem_of_lookup_imap in Hin as (k & v & E & Hv).
  injection E as -> -> ->.
  assert (Hk : 0 <= Z.of_nat k < Z.of_nat (length (values d)))
    by (apply lookup_lt_Some in Hv; lia).
  split; [exact Hk|].
  destruct (proves _ Hk) as [proof Hproof].
  exists proof, (value v).1.2, (treeIndex v).
  unfold ProofGenerator.generateProofByIndex, ProofGenerator.load.
  destruct (Z.ltb_spec (Z.of_nat k) 0) as [|_]; [lia|].
  destruct (Z.geb_spec (Z.of_nat k) (Z.of_nat (length (values d)))) as [|_]; [lia|].
  simpl. rewrite loads. simpl. rewrite Hproof. simpl. rewrite Nat2Z.id, Hv. simpl.
  destruct (value v) as [[r t] n]. reflexivity.
Qed.

End RecipientLookup.

(** X15. Whenever the root of the tree of one leaf is the hash of that leaf
    (as in the library), [verifyProof] accepts the empty proof for every
    value and every root, and accepts a proof exactly when folding it over
    the leaf hash gives the leaf hash back: the answer says nothing about the
    root it was asked about. *)
Theorem verifyProof_accepts_empty_proof (lib : MerkleLib) (v : Value) (h : string)
    (nodes : list string) (index : nat -> Z) :
  merkle_of lib [v] = Some (h, nodes, index) ->
  leaf_hash lib v = Some h ->
  forall root,
    ProofGenerator.verifyProof lib v [] root = Ok true /\
    forall proof,
      ProofGenerator.verifyProof lib v proof root = Ok true <->
      fold_left (hash_pair lib) proof h = h.
Proof.
  intros Hof Hleaf root.
  unfold ProofGenerator.verifyProof, ProofGenerator.verify, StandardMerkleTree_of.
  rewrite Hof. simpl. rewrite Hleaf. simpl.
  split; [rewrite String.eqb_refl; reflexivity|].
  intros proof. split.
  - intros [= H]. apply String.eqb_eq in H. symmetry. exact H.
  - intros ->. rewrite String.eqb_refl. reflexivity.
Qed.

Lemma recipient_lookup_first_witness :
  ProofGenerator.getRecipientInfo Scenario.round1_blob Scenario.user3 = None.
Proof.
  destruct (recipient_lookup_first Scenario.text_lib Scenario.round1_blob eq_refl
              (fun i _ => ex_intro _ [] eq_refl) Scenario.user3) as [Hnone _].
  apply Hnone. intros (v & Hv & Hname).
  change (v ∈ imap (fun i x => {| treeIndex := Z.of_nat i; value := x |})
                Scenario.round1_values) in Hv.
  unfold Scenario.round1_values in Hv. simpl in Hv.
  each_member Hv; vm_compute in Hname; discriminate Hname.
Defined.

Lemma listing_matches_index_witness :
  length (ProofGenerator.getAllRecipients Scenario.round1_blob)
  = length (values Scenario.round1_blob).
Proof.
  apply (listing_matches_index Scenario.text_lib Scenario.round1_blob eq_refl
           (fun i _ => ex_intro _ [] eq_refl)).
Defined.

Lemma verifyProof_accepts_empty_proof_witness :
  ProofGenerator.verifyProof Scenario.leaf_lib
    (Scenario.user1, Scenario.tokenA, Dec 1) [] ZeroHash = Ok true.
Proof.
  assert (Hlib : exists h nodes index,
             merkle_of Scenario.leaf_lib [(Scenario.user1, Scenario.tokenA, Dec 1)]
               = Some (h, nodes, index) /\
             leaf_hash Scenario.leaf_lib (Scenario.user1, Scenario.tokenA, Dec 1)
               = Some h)
    by (eexists _, _, _; split; vm_compute; reflexivity).
  destruct Hlib as (h & nodes & index & Hof & Hleaf).
  exact (proj1 (verifyProof_accepts_empty_proof _ _ _ _ _ Hof Hleaf ZeroHash)).
Defined.

(** ** A round with nothing to distribute *)

Section IdleRound.

Variable lib : MerkleLib.
Variable options : DistributorOptions.
Variable w : World.

Lemma processToken_loop_idle prev users S pc (tokens : list string)
    (allClaims : list Claim) (totals : gmap string numstr) :
  (forall T, T ∈ tokens ->
     exists before D,
       previousTotal prev T = Ok before /\
       Distributor.calculateDistributableAmount options w T prev = Ok D /\ D <= 0) ->
  exists totals',
    for_of (Distributor.processToken options w prev users S pc) tokens
      (allClaims, totals) = Ok (allClaims, totals').
Proof.
  revert totals. induction tokens as [|T tokens IH]; intros totals Hidle.
  - exists totals. reflexivity.
  - destruct (Hidle T) as (before & D & Hb & HD & Hle); [left|].
    simpl. unfold Distributor.processToken at 1.
    unfold previousTotal in Hb. rewrite Hb, HD. simpl.
    destruct (Z.leb_spec D 0) as [_|]; [|lia]. simpl.
    apply IH. intros T' HT'. apply Hidle. right. exact HT'.
Qed.

(** X16. A round in which no listed token has a positive distributable
    amount publishes nothing: when all the reads succeed, it fails with 'No
    claims to process', also when the previous blob has rows that nobody has
    claimed yet. *)
Theorem distribute_idle_round previousInfo prev
    (lastProcessedBlock currentBlock totalSupply : Z) (logs : list Log)
    (pc : gmap string (gmap string Z)) (tokens : list string) :
  distributor_lastProcessedBlock w = Some lastProcessedBlock ->
  provider_getBlockNumber w = Some currentBlock ->
  provider_getBlock w currentBlock = Some tt ->
  provider_getLogs w (Distributor.depositFilter options lastProcessedBlock currentBlock)
    = Some logs ->
  wrapper_totalSupply w = Some totalSupply ->
  Distributor.buildPreviousClaims prev = Ok pc ->
  distributor_getTokens w = Some tokens ->
  (forall T, T ∈ tokens ->
     exists before D,
       previousTotal prev T = Ok before /\
       Distributor.calculateDistributableAmount options w T prev = Ok D /\ D <= 0) ->
  Distributor.distribute lib options w previousInfo prev = Err NoClaims.
Proof.
  intros Hlpb Hcur Hblk Hlogs HS Hpc Htokens Hidle.
  unfold Distributor.distribute.
  rewrite Hlpb, Hcur. simpl. rewrite Hblk. simpl.
  rewrite (getWrapperUsers_owners _ _ _ _ _ Hlogs). simpl.
  rewrite HS. simpl. rewrite Hpc. simpl. rewrite Htokens. simpl.
  destruct (processToken_loop_idle prev
              (Distributor.allUsers prev
                 (first_occurrences
                    (filter (fun a => a <> ZeroAddress) (depositOwners logs))))
              totalSupply pc tokens [] ∅ Hidle) as [totals' Hloop].
  rewrite Hloop. reflexivity.
Qed.

End IdleRound.

Lemma distribute_idle_round_witness :
  Distributor.distribute Scenario.text_lib (Scenario.options_fee 0)
    Scenario.round1_published
    (Some ("bafy-round-1", Scenario.root_of Scenario.round1_values))
    (Some Scenario.round1_blob)
  = Err NoClaims.
Proof.
  assert (Hpc : exists pc,
             Distributor.buildPreviousClaims (Some Scenario.round1_blob) = Ok pc)
    by (apply previousClaims_loop_Ok; vm_compute; reflexivity).
  destruct Hpc as [pc Hpc].
  apply (distribute_idle_round Scenario.text_lib (Scenario.options_fee 0)
           Scenario.round1_published _ (Some Scenario.round1_blob)
           17 18 4000000000000000000 [] pc [Scenario.tokenA; Scenario.tokenB]).
  - reflexivity.
  - reflexivity.
  - reflexivity.
  - vm_compute. reflexivity.
  - reflexivity.
  - exact Hpc.
  - reflexivity.
  - intros T HT. each_member HT.
    + exists 1000000000000000000, 0.
      split; [vm_compute; reflexivity|]. split; [vm_compute; reflexivity | lia].
    + exists 2000, 0.
      split; [vm_compute; reflexivity|]. split; [vm_compute; reflexivity | lia].
Defined.
